(** * Linear-time sorts on keyed records: a shallow embedding and its proofs

    The development follows [sorting.h], [sorting.cpp] and, of
    [main.cpp], the [verify] oracle, the REVERSE and RANDOM branches of
    the generator and the sanity check [runSingleCheck].

    Conventions of the embedding.

    - [int] is a 32-bit two's-complement integer.  Arithmetic on keys
      ([maxVal - minVal + 1], [rec.key - minVal], [r.key += shift],
      [exp *= 10], ...) is written with its wrap-around, [wrap], as the
      usual targets compute it without optimisation.  The language
      leaves an [int] operation that overflows undefined, and an
      optimised build may do otherwise there.  So a theorem that says
      that a sort succeeds carries hypotheses under which none of its
      operations overflows ([span_fits], [diff_fits], [negatable],
      [digits_fit]); the wrap-around value is relied on only to show
      what goes wrong on the other inputs.
    - [long long] arithmetic in [bucketSort] works on values that were
      [int]s, so the sum and the product it forms are exact.
    - A [std::vector] is a list.  Reading or writing outside of it has no
      defined result, and allocating one with a negative size throws:
      the operations return [None], and so does the sort.
    - Counters and positions ([count[..]], [index], [n]) are bounded by
      the number of records, which is taken to fit an [int]; they are
      plain integers.
    - A sort takes the vector by reference and returns nothing; here it
      returns the final vector.
    - The random engine is not modelled: the generator takes the
      sequence of its draws as a function of the round. *)

From Stdlib Require Import ZArith Lia.
From Stdlib Require Import Sorting.Sorted Sorting.Permutation.
From stdpp Require Import base option list numbers sorting.

Local Open Scope Z_scope.

(** ** Machine integers *)

Module Int.

Definition INT_MIN : Z := -2147483648.
Definition INT_MAX : Z := 2147483647.

(** Reduction of an integer to the 32-bit signed range. *)
Definition wrap (z : Z) : Z := (z + 2147483648) `mod` 4294967296 - 2147483648.

Definition in_range (z : Z) : Prop := INT_MIN ≤ z ≤ INT_MAX.

End Int.

Import Int.

(** ** Records and vectors *)

(** [struct Record { int key; int id; }] *)
Record record : Type := mkRecord { key : Z; id : Z }.

Global Instance record_eq_dec : EqDecision record.
Proof. solve_decision. Defined.

(** A value-initialised [Record]. *)
Definition zero_record : record := mkRecord 0 0.

Section vectors.
Context {A : Type}.

(** [std::vector<A> v(n, x)] *)
Definition vec_new (n : Z) (x : A) : option (list A) :=
  if 0 <=? n then Some (replicate (Z.to_nat n) x) else None.

(** [v[i]] as an rvalue *)
Definition vec_get (v : list A) (i : Z) : option A :=
  if 0 <=? i then v !! Z.to_nat i else None.

(** [v[i] = x] *)
Definition vec_set (v : list A) (i : Z) (x : A) : option (list A) :=
  if (0 <=? i) && (i <? Z.of_nat (length v))
  then Some (<[Z.to_nat i := x]> v) else None.

End vectors.

(** A loop over the elements of a list whose body may fail. *)
Fixpoint foldM {A S : Type} (f : S → A → option S) (l : list A) (s : S)
  : option S :=
  match l with
  | [] => Some s
  | x :: l' => s' ← f s x; foldM f l' s'
  end.

(** ** [getMinMax] *)

Definition scan_step (mm : Z * Z) (rec : record) : Z * Z :=
  let minVal := if key rec <? fst mm then key rec else fst mm in
  let maxVal := if key rec >? snd mm then key rec else snd mm in
  (minVal, maxVal).

(** The two reference parameters are returned as a pair; on an empty
    vector they are left as they were.  The sorts pass variables that
    they have not initialised, and only with a vector that is not empty,
    so that both are assigned: the embedding passes [0]. *)
Definition getMinMax (arr : list record) (minVal maxVal : Z) : Z * Z :=
  match arr with
  | [] => (minVal, maxVal)
  | r0 :: _ => fold_left scan_step arr (key r0, key r0)
  end.

(** ** Steps shared by the histogram-based sorts *)

(** [count[i]++] *)
Definition incr (count : list Z) (i : Z) : option (list Z) :=
  c ← vec_get count i; vec_set count i (c + 1).

(** [count[i] += count[i - 1]] *)
Definition accumulate (count : list Z) (i : Z) : option (list Z) :=
  c ← vec_get count i; p ← vec_get count (i - 1); vec_set count i (c + p).

(** [output[count[idx] - 1] = rec; count[idx]--] *)
Definition place (idx : Z) (rec : record) (st : list Z * list record)
  : option (list Z * list record) :=
  c ← vec_get st.1 idx;
  output ← vec_set st.2 (c - 1) rec;
  count ← vec_set st.1 idx (c - 1);
  Some (count, output).

(** [vs[i].push_back(rec)] *)
Definition push_at (vs : list (list record)) (i : Z) (rec : record)
  : option (list (list record)) :=
  b ← vec_get vs i; vec_set vs i (b ++ [rec]).

(** [arr[index++] = item] *)
Definition emit (st : Z * list record) (item : record)
  : option (Z * list record) :=
  arr ← vec_set st.2 st.1 item; Some (st.1 + 1, arr).

(** ** 1. Counting sort (stable) *)

Definition countingSortStable (arr : list record) : option (list record) :=
  match arr with
  | [] => Some arr
  | _ :: _ =>
    let (minVal, maxVal) := getMinMax arr 0 0 in
    let range := wrap (wrap (maxVal - minVal) + 1) in
    count ← vec_new range 0;
    let output := replicate (length arr) zero_record in
    count ← foldM (λ count rec, incr count (wrap (key rec - minVal))) arr count;
    count ← foldM accumulate (seqZ 1 (range - 1)) count;
    st ← foldM (λ st rec, place (wrap (key rec - minVal)) rec st)
               (rev arr) (count, output);
    Some st.2
  end.

(** ** 2. Counting sort (non-stable) *)

(** [arr[index].key = k] *)
Definition set_key (arr : list record) (index k : Z) : option (list record) :=
  r ← vec_get arr index; vec_set arr index (mkRecord k (id r)).

(** The [while (count[i] > 0)] loop.  Every round writes [arr[index]]
    and advances [index], so [length arr] rounds are the most that can
    succeed: running out of [fuel] coincides with a write past the end
    (see [drain_fuel]). *)
Fixpoint drain (fuel : nat) (minVal i : Z) (st : list Z * Z * list record)
  : option (list Z * Z * list record) :=
  let '(count, index, arr) := st in
  c ← vec_get count i;
  if c >? 0 then
    match fuel with
    | O => None
    | S fuel' =>
      arr' ← set_key arr index (wrap (i + minVal));
      count' ← vec_set count i (c - 1);
      drain fuel' minVal i (count', index + 1, arr')
    end
  else Some st.

Definition countingSortUnstable (arr : list record) : option (list record) :=
  match arr with
  | [] => Some arr
  | _ :: _ =>
    let (minVal, maxVal) := getMinMax arr 0 0 in
    let range := wrap (wrap (maxVal - minVal) + 1) in
    count ← vec_new range 0;
    count ← foldM (λ count rec, incr count (wrap (key rec - minVal))) arr count;
    st ← foldM (λ st i, drain (length arr) minVal i st)
               (seqZ 0 range) (count, 0, arr);
    Some st.2
  end.

(** ** 3. LSD radix sort *)

(** [(r.key / exp) % 10]; both operators truncate towards zero. *)
Definition digit (exp : Z) (r : record) : Z := (key r `quot` exp) `rem` 10.

(** One pass of the [for] loop body: a counting sort on one digit. *)
Definition radix_pass (exp : Z) (arr : list record) : option (list record) :=
  let output := replicate (length arr) zero_record in
  let count := replicate 10 0 in
  count ← foldM (λ count r, incr count (digit exp r)) arr count;
  count ← foldM accumulate (seqZ 1 9) count;
  st ← foldM (λ st r, place (digit exp r) r st) (rev arr) (count, output);
  Some st.2.

(** [for (int exp = 1; maxKey / exp > 0; exp *= 10)].  A division by
    zero has no result.  For [maxKey] below [10^9] the loop is left
    with [exp] at [10^9] at most (see [radix_loop_below_overflow]);
    from [10^9] on the product [exp * 10] overflows, and [wrap] stands
    for what the unoptimised build computes. *)
Fixpoint radix_loop (fuel : nat) (maxKey exp : Z) (arr : list record)
  : option (list record) :=
  match fuel with
  | O => None
  | S fuel' =>
    if exp =? 0 then None
    else if maxKey `quot` exp >? 0 then
      arr' ← radix_pass exp arr;
      radix_loop fuel' maxKey (wrap (exp * 10)) arr'
    else Some arr
  end.

(** [r.key += d]; [r.key -= shift] is [add_key (- shift)]. *)
Definition add_key (d : Z) (r : record) : record :=
  mkRecord (wrap (key r + d)) (id r).

(** The loop is left after at most twelve rounds whatever the input is
    (see [radix_loop_fuel]), so the fuel below never runs out. *)
Definition radix_fuel : nat := 13.

Definition radixSortLSD (arr : list record) : option (list record) :=
  match arr with
  | [] => Some arr
  | _ :: _ =>
    let (minVal, maxVal) := getMinMax arr 0 0 in
    let shift := if minVal <? 0 then wrap (- minVal) else 0 in
    let arr := add_key shift <$> arr in
    let maxKey := wrap (maxVal + shift) in
    arr ← radix_loop radix_fuel maxKey 1 arr;
    Some (if shift >? 0 then add_key (- shift) <$> (arr : list record) else arr)
  end.

(** ** 4. Bucket sort *)

(** [std::stable_sort] with the comparison [a.key < b.key], by its
    contract: a stable insertion sort.  An element taken from the front
    goes before the first element that does not compare less than it. *)
Fixpoint insert_by_key (x : record) (l : list record) : list record :=
  match l with
  | [] => [x]
  | y :: l' => if key y <? key x then y :: insert_by_key x l' else x :: l
  end.

Definition stable_sort (l : list record) : list record :=
  foldr insert_by_key [] l.

(** The index computed in the scatter loop, clamp included.  The
    subtraction is done in [int], the product and the quotient in
    [long long]; the quotient is less than [bucketCount] in absolute
    value, so the cast back to [int] keeps it. *)
Definition bucket_index (minVal bucketCount range : Z) (r : record) : Z :=
  let idx := (wrap (key r - minVal) * bucketCount) `quot` range in
  if idx >=? bucketCount then bucketCount - 1 else idx.

Definition bucketSort (arr : list record) : option (list record) :=
  match arr with
  | [] => Some arr
  | _ :: _ =>
    let (minVal, maxVal) := getMinMax arr 0 0 in
    let n := Z.of_nat (length arr) in
    let bucketCount := n in
    let buckets := replicate (Z.to_nat bucketCount) ([] : list record) in
    let range := maxVal - minVal + 1 in
    buckets ← foldM (λ buckets r,
                       push_at buckets (bucket_index minVal bucketCount range r) r)
                    arr buckets;
    st ← foldM (λ st bucket, foldM emit (stable_sort bucket) st)
               buckets (0, arr);
    Some st.2
  end.

(** ** 5. Pigeonhole sort *)

Definition pigeonholeSort (arr : list record) : option (list record) :=
  match arr with
  | [] => Some arr
  | _ :: _ =>
    let (minVal, maxVal) := getMinMax arr 0 0 in
    let range := wrap (wrap (maxVal - minVal) + 1) in
    holes ← vec_new range ([] : list record);
    holes ← foldM (λ holes rec, push_at holes (wrap (key rec - minVal)) rec)
                  arr holes;
    st ← foldM (λ st hole, foldM emit hole st) holes (0, arr);
    Some st.2
  end.

(** ** The verifier *)

(** The body of the loop of [verify] at position [i], with
    [prev = arr[i - 1]] and [cur = arr[i]]: [false] when it returns
    [false], [true] when the loop goes on. *)
Definition verify_step (checkStability : bool) (prev cur : record) : bool :=
  if key cur <? key prev then false
  else if checkStability && (key cur =? key prev) && (id cur <? id prev)
       then false
       else true.

Fixpoint verify_from (checkStability : bool) (prev : record)
  (rest : list record) : bool :=
  match rest with
  | [] => true
  | cur :: rest' =>
    verify_step checkStability prev cur
    && verify_from checkStability cur rest'
  end.

Definition verify (arr : list record) (checkStability : bool) : bool :=
  match arr with
  | [] => true
  | r0 :: rest => verify_from checkStability r0 rest
  end.

(** ** The generator and the sanity check of [main.cpp] *)

(** [generateData(n, k, REVERSE)]: [vector<Record> data(n)], then
    [data[i] = {n - i, i}] for [i] from [0] up to [n].  This branch does
    not read [k]. *)
Definition generateData_REVERSE (n : Z) : option (list record) :=
  data ← vec_new n zero_record;
  foldM (λ data i, vec_set data i (mkRecord (wrap (n - i)) i)) (seqZ 0 n) data.

(** [generateData(n, k, RANDOM)]: [data[i] = {distrib(gen), i}].  The
    engine is seeded from the random device; [draw i] is what the call
    of round [i] delivers, by the contract of the distribution an
    integer from [0] to [k]. *)
Definition generateData_RANDOM (draw : Z → Z) (n : Z) : option (list record) :=
  data ← vec_new n zero_record;
  foldM (λ data i, vec_set data i (mkRecord (draw i) i)) (seqZ 0 n) data.

(** [runSingleCheck]: the data are generated, sorted by [sortFunc] and
    verified with the stability check on.  The result is the flag
    printed after "Stable:"; the time printed beside it is not
    modelled. *)
Definition runSingleCheck (sortFunc : list record → option (list record))
  (draw : Z → Z) (n : Z) : option bool :=
  data ← generateData_RANDOM draw n;
  data ← sortFunc data;
  Some (verify data true).

(** * The vocabulary of the specification and of the proofs *)

(** ** Inputs *)

(** The keys are [int]s. *)
Definition int_keys (arr : list record) : Prop :=
  Forall (λ r, in_range (key r)) arr.

(** The key span [maxKey - minKey + 1] is representable as an [int]. *)
Definition span_fits (arr : list record) : Prop :=
  ∀ a b, a ∈ arr → b ∈ arr → key a - key b + 1 ≤ INT_MAX.

(** Differences of keys are representable: what the scatter loop of
    [bucketSort] needs of [arr[i].key - minVal]. *)
Definition diff_fits (arr : list record) : Prop :=
  ∀ a b, a ∈ arr → b ∈ arr → key a - key b ≤ INT_MAX.

(** No key is [INT_MIN], so that [-minKey] is representable. *)
Definition negatable (arr : list record) : Prop :=
  Forall (λ r, INT_MIN < key r) arr.

(** The keys that [radixSortLSD] works on have nine decimal digits at
    most: the keys stay below [10^9], also when moved by [-minKey] for
    a negative [minKey].  Then [exp] goes up to [10^9] at most and
    [exp *= 10] does not overflow. *)
Definition digits_fit (arr : list record) : Prop :=
  ∀ a b, a ∈ arr → b ∈ arr →
    key a < 1000000000 ∧ key a - key b < 1000000000.

Definition all_keys_equal (arr : list record) : Prop :=
  ∀ a b, a ∈ arr → b ∈ arr → key a = key b.

(** ** Outputs *)

(** [sort] returns on [arr], and what it returns satisfies [P]. *)
Definition returns (sort : list record → option (list record))
  (arr : list record) (P : list record → Prop) : Prop :=
  ∃ out, sort arr = Some out ∧ P out.


(** [output[i].key <= output[i+1].key] for every valid [i]. *)
Definition keys_nondecreasing (l : list record) : Prop :=
  ∀ (i : nat) (a b : record),
    l !! i = Some a → l !! S i = Some b → key a ≤ key b.

(** The records that carry key [k], in the order in which they occur. *)
Definition with_key (k : Z) (l : list record) : list record :=
  filter (λ r, key r = k) l.

(** Records with equal keys occur in [out] in the order in which they
    occur in [arr]. *)
Definition stable_wrt (arr out : list record) : Prop :=
  ∀ k : Z, with_key k out = with_key k arr.

(** Within a run of equal keys the [id]s strictly increase: the wording
    of the specification. *)
Definition ids_increasing_in_runs (l : list record) : Prop :=
  ∀ (i : nat) (a b : record),
    l !! i = Some a → l !! S i = Some b → key a = key b → id a < id b.

(** Within a run of equal keys the [id]s do not decrease. *)
Definition ids_nondecreasing_in_runs (l : list record) : Prop :=
  ∀ (i : nat) (a b : record),
    l !! i = Some a → l !! S i = Some b → key a = key b → id a ≤ id b.


(** ** Orderings and distributions *)

(** Sortedness by a measure [g], all pairs compared. *)
Definition sorted_by (g : record → Z) : list record → Prop :=
  StronglySorted (λ a b, g a ≤ g b).

(** A relation that holds between every two neighbours. *)
Definition adjacent (P : record → record → Prop) (l : list record) : Prop :=
  ∀ (i : nat) (a b : record), l !! i = Some a → l !! S i = Some b → P a b.

(** The records of one key carry [id]s that do not decrease from front
    to back. *)
Definition ids_in_order (l : list record) : Prop :=
  ∀ k : Z, sorted_by id (with_key k l).

(** The [id] of a record is its position, as the generator assigns it. *)
Definition ids_positional (l : list record) : Prop :=
  id <$> l = seqZ 0 (Z.of_nat (length l)).

(** How many records have index [j] under [f], how many an index below
    [j]. *)
Definition occ (f : record → Z) (j : Z) (l : list record) : Z :=
  Z.of_nat (length (filter (λ r, f r = j) l)).

Definition below (f : record → Z) (j : Z) (l : list record) : Z :=
  Z.of_nat (length (filter (λ r, f r < j) l)).

(** The distribution sort that the histogram-based loops compute:
    class after class, each in input order. *)
Definition dsort (f : record → Z) (R : Z) (l : list record) : list record :=
  mjoin ((λ j, filter (λ r, f r = j) l) <$> seqZ 0 R).

(** Buckets sorted one by one, then concatenated. *)
Definition bsort (f : record → Z) (R : Z) (l : list record) : list record :=
  mjoin ((λ j, stable_sort (filter (λ r, f r = j) l)) <$> seqZ 0 R).

(** ** Invariants of the loops *)

(** [holds v n c]: the vector [v] has [n] cells and cell [j] holds
    [c j]. *)
Definition holds {A : Type} (v : list A) (n : Z) (c : Z → A) : Prop :=
  Z.of_nat (length v) = n ∧ ∀ j, 0 ≤ j < n → vec_get v j = Some (c j).

(** The placement loop, seen from the right: [p] is the part of the
    input that is still to be placed. *)
Definition placed (f : record → Z) (R : Z) (arr p : list record)
  (st : list Z * list record) : Prop :=
  holds st.1 R (λ j, below f j arr + occ f j p)
  ∧ length st.2 = length arr
  ∧ ∀ j t, 0 ≤ j < R → occ f j p ≤ t < occ f j arr →
      vec_get st.2 (below f j arr + t)
      = filter (λ r, f r = j) arr !! Z.to_nat t.

(** At the head of the loop of [radixSortLSD], with [exp = M] a power
    of ten: the records are those of the start [arr0], ordered by their
    low digits, and records with one key are in their order of the
    start. *)
Definition pass_inv (arr0 : list record) (M : Z) (l : list record) : Prop :=
  l ≡ₚ arr0 ∧ sorted_by (λ r, key r `mod` M) l ∧ stable_wrt arr0 l.

Definition done_inv (arr0 l : list record) : Prop :=
  l ≡ₚ arr0 ∧ sorted_by key l ∧ stable_wrt arr0 l.

(** [exp] at the head of round [k]: [1], [10], ..., [10^9], and then the
    wrapped products. *)
Definition exp_at (k : nat) : Z := Nat.iter k (λ e, wrap (e * 10)) 1.

(** ** Deciding the conditions on inputs *)

Global Instance record_inhabited : Inhabited record := populate zero_record.

Global Instance in_range_dec z : Decision (in_range z).
Proof. unfold in_range. apply _. Defined.

Global Instance int_keys_dec arr : Decision (int_keys arr).
Proof. unfold int_keys. apply _. Defined.

Global Instance negatable_dec arr : Decision (negatable arr).
Proof. unfold negatable. apply _. Defined.

Global Instance span_fits_dec arr : Decision (span_fits arr).
Proof.
  refine (cast_if (decide (Forall (λ a, Forall (λ b, key a - key b + 1 ≤ INT_MAX)
                                     arr) arr))).
  - match goal with H : Forall _ _ |- _ => rename H into HF end.
    intros a b Ha Hb. rewrite Forall_forall in HF. specialize (HF a Ha).
    rewrite Forall_forall in HF. by apply HF.
  - match goal with H : ¬ _ |- _ => rename H into HF end.
    intros Hs. apply HF, Forall_forall. intros a Ha.
    apply Forall_forall. intros b Hb. by apply Hs.
Defined.

Global Instance digits_fit_dec arr : Decision (digits_fit arr).
Proof.
  refine (cast_if (decide (Forall (λ a, Forall (λ b,
            key a < 1000000000 ∧ key a - key b < 1000000000) arr) arr))).
  - match goal with H : Forall _ _ |- _ => rename H into HF end.
    intros a b Ha Hb. rewrite Forall_forall in HF. specialize (HF a Ha).
    rewrite Forall_forall in HF. by apply HF.
  - match goal with H : ¬ _ |- _ => rename H into HF end.
    intros Hs. apply HF, Forall_forall. intros a Ha.
    apply Forall_forall. intros b Hb. by apply Hs.
Defined.

(** A decidable condition on a given input, settled by evaluation. *)
Ltac by_evaluation := apply (bool_decide_unpack _); vm_compute; exact I.

(** ** Sample inputs *)

(** The scenario of the assignment; negative keys and duplicates; the
    extremes of [int]. *)
Definition scenario : list record :=
  [mkRecord 5 0; mkRecord 3 1; mkRecord 5 2; mkRecord 1 3].

Definition sample : list record :=
  [mkRecord (-5) 0; mkRecord 3 1; mkRecord (-7) 2; mkRecord 3 3;
   mkRecord (-5) 4].

Definition extremes : list record :=
  [mkRecord INT_MIN 0; mkRecord INT_MAX 1; mkRecord INT_MAX 2].

(** * The scenario of the assignment, evaluated *)

Example scenario_stable :
  countingSortStable scenario
  = Some [mkRecord 1 3; mkRecord 3 1; mkRecord 5 0; mkRecord 5 2].
Proof. vm_compute. reflexivity. Qed.

Example scenario_unstable :
  countingSortUnstable scenario
  = Some [mkRecord 1 0; mkRecord 3 1; mkRecord 5 2; mkRecord 5 3].
Proof. vm_compute. reflexivity. Qed.

Example scenario_radix :
  radixSortLSD scenario
  = Some [mkRecord 1 3; mkRecord 3 1; mkRecord 5 0; mkRecord 5 2].
Proof. vm_compute. reflexivity. Qed.

Example scenario_bucket :
  bucketSort scenario
  = Some [mkRecord 1 3; mkRecord 3 1; mkRecord 5 0; mkRecord 5 2].
Proof. vm_compute. reflexivity. Qed.

Example scenario_pigeonhole :
  pigeonholeSort scenario
  = Some [mkRecord 1 3; mkRecord 3 1; mkRecord 5 0; mkRecord 5 2].
Proof. vm_compute. reflexivity. Qed.

(** * Part I: orderings, stability and the reference sort *)

(** ** Generic facts on [sorted_by] *)

Section sorted_by.
Context (g : record → Z).
Implicit Types l : list record.

Lemma sorted_by_nil : sorted_by g [].
Proof. constructor. Qed.

Lemma sorted_by_cons x l :
  sorted_by g (x :: l) ↔ Forall (λ y, g x ≤ g y) l ∧ sorted_by g l.
Proof. apply StronglySorted_cons. Qed.

Lemma sorted_by_app l1 l2 :
  sorted_by g (l1 ++ l2) ↔
    (∀ a b, a ∈ l1 → b ∈ l2 → g a ≤ g b) ∧ sorted_by g l1 ∧ sorted_by g l2.
Proof. apply StronglySorted_app. Qed.

Lemma sorted_by_filter (P : record → Prop) `{!∀ r, Decision (P r)} l :
  sorted_by g l → sorted_by g (filter P l).
Proof.
  induction l as [|x l IH]; [done|].
  rewrite sorted_by_cons. intros [Hx Hl].
  rewrite filter_cons. case_decide; [|by apply IH].
  apply sorted_by_cons. split; [|by apply IH].
  rewrite Forall_forall in Hx |- *.
  intros y Hy. apply Hx. by apply list_elem_of_filter in Hy as [_ ?].
Qed.

(** A list sorted by [g] is sorted by any measure that [g] bounds on
    its elements. *)
Lemma sorted_by_weaken (h : record → Z) l :
  (∀ a b, a ∈ l → b ∈ l → g a ≤ g b → h a ≤ h b) →
  sorted_by g l → sorted_by h l.
Proof.
  induction l as [|x l IH]; intros Hgh Hs; [constructor|].
  apply sorted_by_cons in Hs as [Hx Hl]. apply StronglySorted_cons. split.
  - rewrite Forall_forall in Hx |- *. intros y Hy.
    apply Hgh; [left|by right|by apply Hx].
  - apply IH; [|done]. intros a b Ha Hb. apply Hgh; by right.
Qed.

Lemma sorted_by_const l (c : Z) :
  Forall (λ r, g r = c) l → sorted_by g l.
Proof.
  induction 1 as [|x l Hx Hl IH]; [constructor|].
  apply sorted_by_cons. split; [|done].
  eapply Forall_impl; [exact Hl|]. simpl. lia.
Qed.

(** Two lists sorted by [g] that agree on every class of [g] are the
    same list. *)
Lemma sorted_by_classes_eq l1 l2 :
  sorted_by g l1 → sorted_by g l2 →
  (∀ v, filter (λ r, g r = v) l1 = filter (λ r, g r = v) l2) →
  l1 = l2.
Proof.
  revert l2. induction l1 as [|x l1 IH]; intros l2 Hs1 Hs2 Hcl.
  - destruct l2 as [|y l2]; [done|].
    specialize (Hcl (g y)). rewrite filter_nil, filter_cons_True in Hcl; done.
  - destruct l2 as [|y l2].
    { specialize (Hcl (g x)). rewrite filter_nil, filter_cons_True in Hcl; done. }
    apply sorted_by_cons in Hs1 as [Hx Hs1].
    apply sorted_by_cons in Hs2 as [Hy Hs2].
    rewrite Forall_forall in Hx, Hy.
    assert (g x = g y) as Hxy.
    { assert (x ∈ y :: l2) as Hin.
      { pose proof (Hcl (g x)) as H. rewrite filter_cons_True in H by done.
        assert (x ∈ filter (λ r, g r = g x) (y :: l2)) as Hx' by (rewrite <-H; left).
        by apply list_elem_of_filter in Hx' as [_ ?]. }
      assert (y ∈ x :: l1) as Hin'.
      { pose proof (Hcl (g y)) as H.
        rewrite (filter_cons_True _ y) in H by done.
        assert (y ∈ filter (λ r, g r = g y) (x :: l1)) as Hy' by (rewrite H; left).
        by apply list_elem_of_filter in Hy' as [_ ?]. }
      apply elem_of_cons in Hin as [->|Hin]; [done|].
      apply elem_of_cons in Hin' as [->|Hin']; [done|].
      apply Hy in Hin. apply Hx in Hin'. lia. }
    assert (x = y) as <-.
    { pose proof (Hcl (g x)) as H.
      rewrite !filter_cons_True in H by done. congruence. }
    f_equal. apply IH; [done..|].
    intros v. specialize (Hcl v). rewrite !filter_cons in Hcl.
    case_decide; congruence.
Qed.

End sorted_by.

(** All-pairs sortedness by key gives the adjacent-positions form. *)
Lemma sorted_by_key_nondecreasing l :
  sorted_by key l → keys_nondecreasing l.
Proof.
  induction l as [|x l IH]; intros Hs i a b Ha Hb; [done|].
  apply sorted_by_cons in Hs as [Hx Hs].
  destruct i as [|i]; simpl in *.
  - injection Ha as <-. rewrite Forall_forall in Hx.
    apply Hx. by eapply list_elem_of_lookup_2.
  - by eapply IH.
Qed.


(** ** The reference: [stable_sort] *)

Lemma insert_by_key_perm x l : insert_by_key x l ≡ₚ x :: l.
Proof.
  induction l as [|y l IH]; simpl; [done|].
  case_match; [|done]. rewrite IH. apply Permutation_swap.
Qed.

Lemma stable_sort_perm l : stable_sort l ≡ₚ l.
Proof.
  induction l as [|x l IH]; simpl; [done|].
  unfold stable_sort in *. by rewrite insert_by_key_perm, IH.
Qed.

Lemma insert_by_key_sorted x l :
  sorted_by key l → sorted_by key (insert_by_key x l).
Proof.
  induction l as [|y l IH]; simpl; intros Hs.
  - apply sorted_by_cons. split; constructor.
  - destruct (Z.ltb_spec (key y) (key x)).
    + apply sorted_by_cons in Hs as [Hy Hs].
      apply sorted_by_cons. split; [|by apply IH].
      rewrite insert_by_key_perm. constructor; [lia|done].
    + apply sorted_by_cons. split; [|done].
      apply sorted_by_cons in Hs as [Hy Hs].
      constructor; [done|]. eapply Forall_impl; [exact Hy|]. simpl. lia.
Qed.

Lemma stable_sort_sorted l : sorted_by key (stable_sort l).
Proof.
  induction l as [|x l IH]; simpl; [constructor|].
  by apply insert_by_key_sorted.
Qed.

Lemma insert_by_key_with_key k x l :
  with_key k (insert_by_key x l) = with_key k (x :: l).
Proof.
  unfold with_key. induction l as [|y l IH]; simpl; [done|].
  destruct (Z.ltb_spec (key y) (key x)); [|done].
  rewrite (filter_cons _ y), IH, !filter_cons.
  repeat case_decide; try done; lia.
Qed.

Lemma stable_sort_stable l : stable_wrt l (stable_sort l).
Proof.
  intros k. induction l as [|x l IH]; simpl; [done|].
  rewrite insert_by_key_with_key. unfold with_key in *.
  rewrite !filter_cons. by rewrite IH.
Qed.

(** A stable, sorted rearrangement is the reference sort. *)
Lemma stable_sort_unique arr out :
  sorted_by key out → stable_wrt arr out → out = stable_sort arr.
Proof.
  intros Hs Hst. apply (sorted_by_classes_eq key); [done|apply stable_sort_sorted|].
  intros v. pose proof (stable_sort_stable arr v) as H.
  specialize (Hst v). unfold with_key in *. congruence.
Qed.

Lemma stable_sort_of_sorted l : sorted_by key l → stable_sort l = l.
Proof. intros Hs. symmetry. by apply stable_sort_unique. Qed.


Lemma stable_sort_length l : length (stable_sort l) = length l.
Proof. by rewrite stable_sort_perm. Qed.

(** * Part II: vectors, loops and histograms *)

(** ** Loops *)

Lemma bind_Some {A B : Type} (x : A) (k : A → option B) : Some x ≫= k = k x.
Proof. reflexivity. Qed.

Section foldM.
Context {A S : Type}.
Implicit Types (f : S → A → option S) (l : list A) (s : S).

Lemma foldM_app f l1 l2 s :
  foldM f (l1 ++ l2) s = foldM f l1 s ≫= foldM f l2.
Proof.
  revert s. induction l1 as [|x l1 IH]; intros s; simpl; [done|].
  destruct (f s x) as [s'|]; simpl; [apply IH|done].
Qed.

Lemma foldM_snoc f l x s :
  foldM f (l ++ [x]) s = foldM f l s ≫= λ s', f s' x.
Proof.
  rewrite foldM_app. destruct (foldM f l s) as [s'|]; simpl; [|done].
  by destruct (f s' x).
Qed.

Lemma foldM_ext f1 f2 l s :
  (∀ s' x, x ∈ l → f1 s' x = f2 s' x) → foldM f1 l s = foldM f2 l s.
Proof.
  revert s. induction l as [|x l IH]; intros s Hf; simpl; [done|].
  rewrite Hf by left. destruct (f2 s x) as [s'|]; simpl; [|done].
  apply IH. intros ???. apply Hf. by right.
Qed.

(** A loop whose body keeps an invariant keeps it. *)
Lemma foldM_invariant (I : S → Prop) f l s s' :
  (∀ s1 s2 x, I s1 → f s1 x = Some s2 → I s2) →
  I s → foldM f l s = Some s' → I s'.
Proof.
  intros Hstep. revert s. induction l as [|x l IH]; simpl; intros s Hs Hrun.
  - by injection Hrun as <-.
  - destruct (f s x) as [s1|] eqn:Hf; simpl in Hrun; [|done].
    eapply IH; [|done]. by eapply Hstep.
Qed.

End foldM.

(** ** Vectors seen as functions on their index range *)

Section vectors_facts.
Context {A : Type}.
Implicit Types (v : list A) (i j n : Z) (x : A).

Lemma vec_get_lookup v i : 0 ≤ i → vec_get v i = v !! Z.to_nat i.
Proof. unfold vec_get. intros. by rewrite (proj2 (Z.leb_le 0 i)). Qed.

Lemma vec_get_Some v i x :
  vec_get v i = Some x → 0 ≤ i < Z.of_nat (length v).
Proof.
  unfold vec_get. destruct (Z.leb_spec 0 i); [|done].
  intros Hl%lookup_lt_Some. lia.
Qed.

Lemma vec_set_Some v i x :
  0 ≤ i < Z.of_nat (length v) →
  vec_set v i x = Some (<[Z.to_nat i := x]> v).
Proof.
  unfold vec_set. intros [??].
  by rewrite (proj2 (Z.leb_le 0 i)), (proj2 (Z.ltb_lt i _)).
Qed.

Lemma vec_set_inv v i x v' :
  vec_set v i x = Some v' →
  0 ≤ i < Z.of_nat (length v) ∧ v' = <[Z.to_nat i := x]> v.
Proof.
  unfold vec_set.
  destruct (Z.leb_spec 0 i), (Z.ltb_spec i (Z.of_nat (length v)));
    simpl; intros [= <-]; auto.
Qed.

Lemma vec_get_insert v i j x :
  0 ≤ i < Z.of_nat (length v) → 0 ≤ j →
  vec_get (<[Z.to_nat i := x]> v) j
  = if decide (j = i) then Some x else vec_get v j.
Proof.
  intros Hi Hj. rewrite !vec_get_lookup by done. case_decide as Hij.
  - subst. apply list_lookup_insert_eq. lia.
  - apply list_lookup_insert_ne. lia.
Qed.

Lemma vec_ext v1 v2 :
  length v1 = length v2 →
  (∀ i, 0 ≤ i < Z.of_nat (length v1) → vec_get v1 i = vec_get v2 i) →
  v1 = v2.
Proof.
  intros Hlen Hget. apply list_eq. intros k.
  destruct (decide (k < length v1)%nat) as [Hk|Hk].
  - specialize (Hget (Z.of_nat k)).
    rewrite !vec_get_lookup, Nat2Z.id in Hget by lia. apply Hget. lia.
  - rewrite !lookup_ge_None_2; [done|lia..].
Qed.

Lemma holds_new n x v :
  vec_new n x = Some v → 0 ≤ n ∧ holds v n (λ _, x).
Proof.
  unfold vec_new. destruct (Z.leb_spec 0 n); [|done]. intros [= <-].
  split; [done|]. split; [rewrite length_replicate; lia|].
  intros j Hj. rewrite vec_get_lookup by lia.
  apply lookup_replicate_2. lia.
Qed.

Lemma vec_new_Some n x : 0 ≤ n → vec_new n x = Some (replicate (Z.to_nat n) x).
Proof. unfold vec_new. intros. by rewrite (proj2 (Z.leb_le 0 n)). Qed.

Lemma holds_ext v n c1 c2 :
  (∀ j, 0 ≤ j < n → c1 j = c2 j) → holds v n c1 → holds v n c2.
Proof.
  intros Hc [Hlen Hget]. split; [done|].
  intros j Hj. rewrite <-Hc by done. by apply Hget.
Qed.

Lemma holds_set v n c i x :
  holds v n c → 0 ≤ i < n →
  ∃ v', vec_set v i x = Some v'
        ∧ holds v' n (λ j, if decide (j = i) then x else c j).
Proof.
  intros [Hlen Hget] Hi. eexists. split; [apply vec_set_Some; lia|].
  split; [rewrite length_insert; lia|].
  intros j Hj. rewrite vec_get_insert by lia.
  case_decide; [done|]. by apply Hget.
Qed.

Lemma holds_eq v1 v2 n c : holds v1 n c → holds v2 n c → v1 = v2.
Proof.
  intros [Hl1 Hg1] [Hl2 Hg2]. apply vec_ext; [lia|].
  intros i Hi. rewrite Hg1, Hg2; [done|lia..].
Qed.

End vectors_facts.

(** ** Counting the records of a class *)

Section distribution.
Context (f : record → Z).
Implicit Types (l arr : list record) (j R : Z) (r : record).

Lemma occ_nil j : occ f j [] = 0.
Proof. done. Qed.

Lemma occ_cons j r l :
  occ f j (r :: l) = (if decide (f r = j) then 1 else 0) + occ f j l.
Proof.
  unfold occ. rewrite filter_cons. case_decide; simpl length; lia.
Qed.

Lemma occ_app j l1 l2 : occ f j (l1 ++ l2) = occ f j l1 + occ f j l2.
Proof. unfold occ. rewrite filter_app, length_app. lia. Qed.

Lemma occ_nonneg j l : 0 ≤ occ f j l.
Proof. unfold occ. lia. Qed.

Lemma below_nonneg j l : 0 ≤ below f j l.
Proof. unfold below. lia. Qed.

Lemma below_succ j l : below f (j + 1) l = below f j l + occ f j l.
Proof.
  unfold below, occ. induction l as [|r l IH]; [done|].
  rewrite !filter_cons. repeat case_decide; simpl length; lia.
Qed.

Lemma below_mono j1 j2 l : j1 ≤ j2 → below f j1 l ≤ below f j2 l.
Proof.
  intros Hj. unfold below. induction l as [|r l IH]; [done|].
  rewrite !filter_cons. repeat case_decide; simpl length; lia.
Qed.

Lemma below_none j l : Forall (λ r, j ≤ f r) l → below f j l = 0.
Proof.
  unfold below. induction 1 as [|r l Hr Hl IH]; [done|].
  rewrite filter_cons_False by lia. done.
Qed.

Lemma below_all j l :
  Forall (λ r, f r < j) l → below f j l = Z.of_nat (length l).
Proof.
  unfold below. induction 1 as [|r l Hr Hl IH]; [done|].
  rewrite filter_cons_True by lia. simpl length. lia.
Qed.

Lemma below_block j1 j2 l : j1 < j2 → below f j1 l + occ f j1 l ≤ below f j2 l.
Proof. intros. rewrite <-below_succ. apply below_mono. lia. Qed.

(** *** The shape of [dsort] *)

Lemma dsort_nonpos R l : R ≤ 0 → dsort f R l = [].
Proof. intros. unfold dsort. by rewrite seqZ_nil. Qed.

Lemma dsort_succ (n : nat) l :
  dsort f (Z.of_nat (S n)) l
  = dsort f (Z.of_nat n) l ++ filter (λ r, f r = Z.of_nat n) l.
Proof.
  unfold dsort. rewrite seqZ_S, fmap_app, join_app. simpl.
  by rewrite app_nil_r, Z.add_0_l.
Qed.

Lemma elem_of_dsort R l r :
  r ∈ dsort f R l ↔ r ∈ l ∧ 0 ≤ f r < R.
Proof.
  unfold dsort. rewrite list_elem_of_join. split.
  - intros (b & Hr & Hb). apply list_elem_of_fmap in Hb as (j & -> & Hj).
    apply elem_of_seqZ in Hj. apply list_elem_of_filter in Hr as [??].
    split; [done|lia].
  - intros [Hr Hf]. exists (filter (λ r', f r' = f r) l). split.
    + by apply list_elem_of_filter.
    + apply list_elem_of_fmap. exists (f r). split; [done|].
      apply elem_of_seqZ. lia.
Qed.

Lemma dsort_length (n : nat) l :
  Forall (λ r, 0 ≤ f r) l →
  Z.of_nat (length (dsort f (Z.of_nat n) l)) = below f (Z.of_nat n) l.
Proof.
  intros Hl. induction n as [|n IH].
  - rewrite dsort_nonpos by done. by rewrite below_none.
  - rewrite dsort_succ, length_app, Nat2Z.inj_add, IH.
    replace (Z.of_nat (S n)) with (Z.of_nat n + 1) by lia.
    by rewrite below_succ.
Qed.

(** Where the [t]-th record of class [j] sits in [dsort]. *)
Lemma dsort_get (n : nat) l j t :
  Forall (λ r, 0 ≤ f r) l →
  0 ≤ j < Z.of_nat n → 0 ≤ t < occ f j l →
  vec_get (dsort f (Z.of_nat n) l) (below f j l + t)
  = filter (λ r, f r = j) l !! Z.to_nat t.
Proof.
  intros Hl Hj Ht. pose proof (below_nonneg j l).
  rewrite vec_get_lookup by lia.
  induction n as [|n IH]; [lia|].
  pose proof (dsort_length n l Hl) as Hlen.
  rewrite dsort_succ.
  destruct (decide (j = Z.of_nat n)) as [->|Hne].
  - rewrite lookup_app_r by lia. f_equal. lia.
  - rewrite lookup_app_l; [apply IH; lia|].
    pose proof (below_block j (Z.of_nat n) l). lia.
Qed.

(** Every position of [dsort] is the [t]-th of some class [j]. *)
Lemma dsort_position (n : nat) l pos :
  Forall (λ r, 0 ≤ f r) l →
  0 ≤ pos < below f (Z.of_nat n) l →
  ∃ j t, 0 ≤ j < Z.of_nat n ∧ 0 ≤ t < occ f j l ∧ pos = below f j l + t.
Proof.
  intros Hl. induction n as [|n IH]; intros Hpos.
  - rewrite below_none in Hpos by done. lia.
  - destruct (decide (pos < below f (Z.of_nat n) l)) as [Hlt|Hge].
    + destruct IH as (j & t & ? & ? & ?); [lia|].
      exists j, t. split_and!; [lia..|done].
    + exists (Z.of_nat n), (pos - below f (Z.of_nat n) l).
      replace (Z.of_nat (S n)) with (Z.of_nat n + 1) in Hpos by lia.
      rewrite below_succ in Hpos. split_and!; lia.
Qed.

End distribution.

(** ** Filters *)

Section filters.
Context {A : Type}.
Implicit Types (l : list A) (P Q : A → Prop).

Lemma filter_all P `{!∀ x, Decision (P x)} l : Forall P l → filter P l = l.
Proof.
  induction 1 as [|x l Hx Hl IH]; [done|].
  by rewrite filter_cons_True, IH.
Qed.

Lemma filter_none P `{!∀ x, Decision (P x)} l :
  Forall (λ x, ¬ P x) l → filter P l = [].
Proof.
  induction 1 as [|x l Hx Hl IH]; [done|].
  by rewrite filter_cons_False.
Qed.

Lemma filter_ext_elem P Q `{!∀ x, Decision (P x), !∀ x, Decision (Q x)} l :
  (∀ x, x ∈ l → P x ↔ Q x) → filter P l = filter Q l.
Proof.
  induction l as [|x l IH]; intros HPQ; [done|].
  rewrite !filter_cons, IH by (intros; apply HPQ; by right).
  apply decide_ext, HPQ. left.
Qed.

Lemma filter_comm P Q `{!∀ x, Decision (P x), !∀ x, Decision (Q x)} l :
  filter P (filter Q l) = filter Q (filter P l).
Proof. rewrite !list_filter_filter. apply list_filter_iff. tauto. Qed.

Lemma filter_join P `{!∀ x, Decision (P x)} (ls : list (list A)) :
  filter P (mjoin ls) = mjoin (filter P <$> ls).
Proof.
  induction ls as [|b ls IH]; [done|]. simpl.
  by rewrite filter_app, IH.
Qed.

Lemma filter_disjoint_app P Q
  `{!∀ x, Decision (P x), !∀ x, Decision (Q x)} l :
  (∀ x, P x → Q x → False) →
  filter P l ++ filter Q l ≡ₚ filter (λ x, P x ∨ Q x) l.
Proof.
  intros HPQ. induction l as [|x l IH]; [done|].
  rewrite !filter_cons.
  destruct (decide (P x)) as [HP|HP], (decide (Q x)) as [HQ|HQ];
    [by destruct (HPQ x)|..].
  - rewrite decide_True by auto. simpl. by rewrite IH.
  - rewrite decide_True by auto. rewrite <-IH. by rewrite Permutation_middle.
  - rewrite decide_False by tauto. done.
Qed.

End filters.

(** ** Properties of the distribution sort *)

Section distribution_facts.
Context (f : record → Z).
Implicit Types (l arr : list record) (j R : Z) (r : record).

Lemma dsort_filter_range (n : nat) l :
  dsort f (Z.of_nat n) l ≡ₚ filter (λ r, 0 ≤ f r < Z.of_nat n) l.
Proof.
  induction n as [|n IH].
  - rewrite dsort_nonpos by done. rewrite filter_none; [done|].
    apply Forall_forall. lia.
  - rewrite dsort_succ, IH, filter_disjoint_app by lia.
    erewrite list_filter_iff; [done|]. intros r. simpl. lia.
Qed.

Lemma dsort_perm R l :
  Forall (λ r, 0 ≤ f r < R) l → dsort f R l ≡ₚ l.
Proof.
  intros Hl. destruct (decide (0 ≤ R)) as [HR|HR].
  - rewrite <-(Z2Nat.id R), dsort_filter_range by done.
    rewrite filter_all; [done|]. eapply Forall_impl; [exact Hl|].
    simpl. lia.
  - destruct l as [|r l]; [by rewrite dsort_nonpos by lia|].
    apply Forall_cons in Hl as [? _]. lia.
Qed.

Lemma filter_dsort (P : record → Prop) `{!∀ r, Decision (P r)} R l :
  filter P (dsort f R l) = dsort f R (filter P l).
Proof.
  unfold dsort. rewrite filter_join, <-list_fmap_compose.
  f_equal. apply list_fmap_ext. intros _ j _. simpl. apply filter_comm.
Qed.

(** Records of a single class are left as they are. *)
Lemma dsort_one_class (n : nat) l c :
  0 ≤ c < Z.of_nat n → Forall (λ r, f r = c) l →
  dsort f (Z.of_nat n) l = l.
Proof.
  intros Hc Hl. induction n as [|n IH]; [lia|].
  rewrite dsort_succ. destruct (decide (c = Z.of_nat n)) as [->|Hne].
  - rewrite filter_all by done.
    assert (dsort f (Z.of_nat n) l = []) as ->; [|done].
    apply elem_of_nil_inv. intros r [Hr Hf]%elem_of_dsort.
    rewrite Forall_forall in Hl. specialize (Hl r Hr). lia.
  - rewrite IH by lia. rewrite filter_none; [by rewrite app_nil_r|].
    eapply Forall_impl; [exact Hl|]. simpl. lia.
Qed.

(** Stability, in its general form: a sub-collection that lies within
    one class comes out in input order. *)
Lemma dsort_filter (P : record → Prop) `{!∀ r, Decision (P r)} R l :
  Forall (λ r, 0 ≤ f r < R) l →
  (∀ a b, a ∈ l → b ∈ l → P a → P b → f a = f b) →
  filter P (dsort f R l) = filter P l.
Proof.
  intros Hl HP. rewrite filter_dsort.
  destruct (filter P l) as [|a l'] eqn:Hfl.
  { unfold dsort. apply join_nil_2, Forall_fmap, Forall_forall. done. }
  rewrite <-Hfl.
  assert (a ∈ filter P l) as [HPa Ha]%list_elem_of_filter
    by (rewrite Hfl; left).
  rewrite Forall_forall in Hl. pose proof (Hl a Ha).
  rewrite <-(Z2Nat.id R) by lia.
  apply (dsort_one_class _ _ (f a)); [lia|].
  apply Forall_forall. intros b [HPb Hb]%list_elem_of_filter. by apply HP.
Qed.

(** Sortedness by a measure [h] that refines the classes. *)
Lemma dsort_sorted_by (h : record → Z) R l :
  (∀ j, sorted_by h (filter (λ r, f r = j) l)) →
  (∀ a b, a ∈ l → b ∈ l → f a < f b → h a ≤ h b) →
  sorted_by h (dsort f R l).
Proof.
  intros Hcl Hcross. destruct (decide (0 ≤ R)) as [HR|HR];
    [|rewrite dsort_nonpos by lia; constructor].
  rewrite <-(Z2Nat.id R) by done.
  induction (Z.to_nat R) as [|n IH]; [rewrite dsort_nonpos by done; constructor|].
  rewrite dsort_succ. apply StronglySorted_app.
  split_and!; [|exact IH|apply Hcl].
  intros a b [Ha Hfa]%elem_of_dsort [Hfb Hb]%list_elem_of_filter.
  apply Hcross; [done..|lia].
Qed.

Lemma dsort_sorted R l : sorted_by f (dsort f R l).
Proof.
  apply dsort_sorted_by; [|lia].
  intros j. apply sorted_by_const with j, Forall_forall.
  by intros r [? _]%list_elem_of_filter.
Qed.

(** A list that is sorted by class already is a fixed point. *)
Lemma dsort_of_sorted R l :
  Forall (λ r, 0 ≤ f r < R) l → sorted_by f l → dsort f R l = l.
Proof.
  intros Hl Hs. apply (sorted_by_classes_eq f); [apply dsort_sorted|done|].
  intros v. apply dsort_filter; [done|]. congruence.
Qed.

End distribution_facts.

(** ** The three loops of a counting pass *)

Section histogram.
Context (f : record → Z) (R : Z).
Implicit Types (l arr p s : list record) (count : list Z) (c : Z → Z).

Lemma below_le_length j l : below f j l ≤ Z.of_nat (length l).
Proof. unfold below. pose proof (length_filter (λ r, f r < j) l). lia. Qed.

Lemma incr_holds count c i :
  holds count R c → 0 ≤ i < R →
  ∃ count', incr count i = Some count'
            ∧ holds count' R (λ j, if decide (j = i) then c j + 1 else c j).
Proof.
  intros Hc Hi. unfold incr. rewrite (proj2 Hc i Hi). simpl.
  destruct (holds_set _ _ _ i (c i + 1) Hc Hi) as (count' & -> & Hc').
  eexists. split; [done|]. eapply holds_ext; [|exact Hc'].
  intros j _. simpl. case_decide; congruence.
Qed.

(** Frequency count: [count[f rec]++] for every record. *)
Lemma frequency_holds l : ∀ count c,
  holds count R c → Forall (λ r, 0 ≤ f r < R) l →
  ∃ count', foldM (λ count r, incr count (f r)) l count = Some count'
            ∧ holds count' R (λ j, c j + occ f j l).
Proof.
  induction l as [|r l IH]; intros count c Hc Hl; simpl.
  - eexists. split; [done|]. eapply holds_ext; [|exact Hc].
    intros. rewrite occ_nil. lia.
  - apply Forall_cons in Hl as [Hr Hl].
    destruct (incr_holds _ _ (f r) Hc Hr) as (count1 & -> & Hc1). simpl.
    destruct (IH _ _ Hc1 Hl) as (count' & -> & Hc').
    eexists. split; [done|]. eapply holds_ext; [|exact Hc'].
    intros j _. simpl. rewrite occ_cons. repeat case_decide; lia.
Qed.

(** Cumulative count, after the rounds [i = 1 .. m]. *)
Lemma accumulate_holds arr count (m : nat) :
  Forall (λ r, 0 ≤ f r) arr →
  holds count R (λ j, occ f j arr) → Z.of_nat m ≤ R - 1 →
  ∃ count', foldM accumulate (seqZ 1 (Z.of_nat m)) count = Some count'
            ∧ holds count' R (λ j, if decide (j ≤ Z.of_nat m)
                                   then below f (j + 1) arr
                                   else occ f j arr).
Proof.
  intros Harr Hc. induction m as [|m IH]; intros Hm.
  - exists count. split; [done|]. eapply holds_ext; [|exact Hc].
    intros j Hj. simpl. case_decide; [|done].
    assert (j = 0) as -> by lia.
    rewrite below_succ, below_none by done. lia.
  - destruct IH as (count1 & Hrun & Hc1); [lia|].
    rewrite seqZ_S, foldM_snoc, Hrun. simpl. unfold accumulate.
    rewrite (proj2 Hc1 (1 + Z.of_nat m)) by lia.
    rewrite (proj2 Hc1 (1 + Z.of_nat m - 1)) by lia. simpl.
    rewrite decide_False, decide_True by lia.
    destruct (holds_set _ _ _ (1 + Z.of_nat m)
                (occ f (1 + Z.of_nat m) arr
                 + below f (1 + Z.of_nat m - 1 + 1) arr) Hc1)
      as (count' & -> & Hc'); [lia|].
    eexists. split; [done|]. eapply holds_ext; [|exact Hc'].
    intros j Hj. simpl. destruct (decide (j = 1 + Z.of_nat m)) as [->|Hne].
    + rewrite decide_True by lia. rewrite (below_succ f (1 + Z.of_nat m)).
      replace (1 + Z.of_nat m - 1 + 1) with (1 + Z.of_nat m) by lia. lia.
    + destruct (decide (j ≤ Z.of_nat m));
        [rewrite decide_True by lia|rewrite decide_False by lia]; done.
Qed.

Lemma cumulative_holds arr count :
  Forall (λ r, 0 ≤ f r) arr →
  holds count R (λ j, occ f j arr) →
  ∃ count', foldM accumulate (seqZ 1 (R - 1)) count = Some count'
            ∧ holds count' R (λ j, below f (j + 1) arr).
Proof.
  intros Harr Hc. destruct (decide (1 ≤ R)) as [HR|HR].
  - destruct (accumulate_holds arr count (Z.to_nat (R - 1)) Harr Hc)
      as (count' & Hrun & Hc'); [lia|].
    rewrite Z2Nat.id in Hrun, Hc' by lia.
    exists count'. split; [done|]. eapply holds_ext; [|exact Hc'].
    intros j Hj. simpl. by rewrite decide_True by lia.
  - rewrite seqZ_nil by lia. exists count. split; [done|].
    destruct Hc as [Hlen _]. split; [done|]. lia.
Qed.

Lemma place_step arr p r s st :
  arr = p ++ r :: s → Forall (λ r, 0 ≤ f r < R) arr →
  placed f R arr (p ++ [r]) st →
  ∃ st', place (f r) r st = Some st' ∧ placed f R arr p st'.
Proof.
  intros Harr Hin (Hc & Hlen & Hout).
  assert (0 ≤ f r < R) as Hr.
  { rewrite Forall_forall in Hin. apply Hin. subst arr.
    apply elem_of_app. right. left. }
  assert (occ f (f r) arr = occ f (f r) p + 1 + occ f (f r) s) as Hocc.
  { subst arr. rewrite occ_app, occ_cons, decide_True by done. lia. }
  pose proof (occ_nonneg f (f r) p). pose proof (occ_nonneg f (f r) s).
  pose proof (below_nonneg f (f r) arr).
  pose proof (below_le_length (f r + 1) arr) as Hle.
  rewrite below_succ in Hle.
  unfold place. rewrite (proj2 Hc (f r) Hr). simpl.
  rewrite occ_app, occ_cons, occ_nil, decide_True by done.
  rewrite (vec_set_Some st.2) by lia. simpl.
  destruct (holds_set _ _ _ (f r)
              (below f (f r) arr + (occ f (f r) p + (1 + 0)) - 1) Hc Hr)
    as (count' & -> & Hc'). simpl.
  eexists. split; [done|]. split_and!; simpl.
  - eapply holds_ext; [|exact Hc']. intros j Hj. simpl.
    rewrite occ_app, occ_cons, occ_nil.
    destruct (decide (j = f r)) as [->|Hne]; [lia|].
    rewrite decide_False by congruence. lia.
  - by rewrite length_insert.
  - intros j t Hj Ht. pose proof (below_nonneg f j arr).
    pose proof (occ_nonneg f j p).
    rewrite vec_get_insert by lia. case_decide as Hpos.
    + destruct (Z.lt_total j (f r)) as [Hlt|[->|Hgt]].
      * pose proof (below_block f j (f r) arr Hlt). lia.
      * assert (t = occ f (f r) p) as -> by lia.
        subst arr. rewrite filter_app, filter_cons_True by done.
        unfold occ. rewrite Nat2Z.id. symmetry. apply list_lookup_middle. done.
      * pose proof (below_block f (f r) j arr Hgt). lia.
    + apply Hout; [done|]. rewrite occ_app, occ_cons, occ_nil.
      case_decide; [|lia]. subst j. lia.
Qed.

Lemma place_loop arr p : ∀ s st,
  arr = p ++ s → Forall (λ r, 0 ≤ f r < R) arr → placed f R arr p st →
  ∃ st', foldM (λ st r, place (f r) r st) (rev p) st = Some st'
         ∧ placed f R arr [] st'.
Proof.
  induction p as [|r p IH] using rev_ind; intros s st Harr Hin Hst.
  - exists st. done.
  - rewrite rev_unit. simpl. rewrite <-app_assoc in Harr. simpl in Harr.
    destruct (place_step arr p r s st Harr Hin Hst) as (st1 & -> & Hst1).
    simpl. by apply (IH (r :: s)).
Qed.

(** The three loops together compute the distribution sort. *)
Lemma counting_pass arr count0 :
  Forall (λ r, 0 ≤ f r < R) arr →
  holds count0 R (λ _, 0) →
  (count ← foldM (λ count r, incr count (f r)) arr count0;
   count ← foldM accumulate (seqZ 1 (R - 1)) count;
   st ← foldM (λ st r, place (f r) r st) (rev arr)
              (count, replicate (length arr) zero_record);
   Some st.2) = Some (dsort f R arr).
Proof.
  intros Hin Hc0.
  assert (Forall (λ r, 0 ≤ f r) arr) as Hnn
    by (eapply Forall_impl; [exact Hin|]; simpl; lia).
  assert (0 ≤ R) as HR by (destruct Hc0; lia).
  destruct (frequency_holds arr _ _ Hc0 Hin) as (count1 & -> & Hc1). simpl.
  destruct (cumulative_holds arr count1 Hnn) as (count2 & -> & Hc2).
  { eapply holds_ext; [|exact Hc1]. intros. simpl. lia. }
  simpl.
  destruct (place_loop arr arr [] (count2, replicate (length arr) zero_record))
    as (st & -> & Hc & Hlen & Hout);
    [by rewrite app_nil_r|done| |].
  { split_and!; simpl.
    - eapply holds_ext; [|exact Hc2]. intros. simpl. apply below_succ.
    - apply length_replicate.
    - intros. lia. }
  simpl. f_equal.
  assert (Z.of_nat (length (dsort f R arr)) = Z.of_nat (length arr)) as Hlen'.
  { rewrite <-(Z2Nat.id R), dsort_length by done. apply below_all.
    eapply Forall_impl; [exact Hin|]. simpl. lia. }
  apply vec_ext; [lia|]. intros pos Hpos.
  destruct (dsort_position f (Z.to_nat R) arr pos Hnn) as (j & t & Hj & Ht & ->).
  { rewrite <-dsort_length, Z2Nat.id by done. lia. }
  rewrite Z2Nat.id in Hj by done.
  rewrite Hout by (rewrite ?occ_nil; lia).
  symmetry. rewrite <-(Z2Nat.id R) by done. apply dsort_get; [done|lia..].
Qed.

End histogram.

(** * Part III: the sorts, one by one *)

(** ** Machine integers *)

Lemma wrap_in_range z : in_range z → wrap z = z.
Proof.
  unfold in_range, wrap, INT_MIN, INT_MAX. intros Hz.
  rewrite Z.mod_small by lia. lia.
Qed.

Lemma wrap_range z : in_range (wrap z).
Proof.
  unfold in_range, wrap, INT_MIN, INT_MAX.
  pose proof (Z.mod_pos_bound (z + 2147483648) 4294967296). lia.
Qed.

(** ** [getMinMax] finds the least and the greatest key *)

Lemma scan_fold l : ∀ mn0 mx0 mn mx,
  fold_left scan_step l (mn0, mx0) = (mn, mx) →
  mn ≤ mn0 ∧ mx0 ≤ mx
  ∧ (∀ r, r ∈ l → mn ≤ key r ≤ mx)
  ∧ (mn = mn0 ∨ ∃ r, r ∈ l ∧ key r = mn)
  ∧ (mx = mx0 ∨ ∃ r, r ∈ l ∧ key r = mx).
Proof.
  induction l as [|x l IH]; intros mn0 mx0 mn mx; simpl.
  - intros [= <- <-]. split_and!; auto with lia. by intros r ?%elem_of_nil.
  - unfold scan_step at 2. simpl. intros Hrun.
    apply IH in Hrun as (Hmn & Hmx & Hall & Hemn & Hemx).
    destruct (Z.ltb_spec (key x) mn0), (Z.gtb_spec (key x) mx0).
    all: split_and!; [lia|lia| | |].
    all: try (intros r [->|Hr]%elem_of_cons; [lia|by apply Hall]).
    all: try (destruct Hemn as [->|(r & ? & ?)];
              [|right; exists r; split; [by right|done]];
              first [by left | right; exists x; split; [left|done]]).
    all: try (destruct Hemx as [->|(r & ? & ?)];
              [|right; exists r; split; [by right|done]];
              first [by left | right; exists x; split; [left|done]]).
Qed.

Lemma getMinMax_spec arr a b mn mx :
  arr ≠ [] → getMinMax arr a b = (mn, mx) →
  (∀ r, r ∈ arr → mn ≤ key r ≤ mx)
  ∧ (∃ r, r ∈ arr ∧ key r = mn) ∧ (∃ r, r ∈ arr ∧ key r = mx).
Proof.
  destruct arr as [|r0 l]; [done|]. intros _. unfold getMinMax.
  intros (Hmn & Hmx & Hall & Hemn & Hemx)%scan_fold.
  split_and!; [done| |].
  - destruct Hemn as [->|?]; [|done]. exists r0. split; [left|done].
  - destruct Hemx as [->|?]; [|done]. exists r0. split; [left|done].
Qed.

(** The facts on the bounds that the sorts rely on. *)
Lemma bounds_facts arr mn mx :
  arr ≠ [] → int_keys arr → getMinMax arr 0 0 = (mn, mx) →
  in_range mn ∧ in_range mx ∧ mn ≤ mx
  ∧ (∀ r, r ∈ arr → mn ≤ key r ≤ mx)
  ∧ (span_fits arr → mx - mn + 1 ≤ INT_MAX).
Proof.
  intros Hne Hint Hmm.
  destruct (getMinMax_spec _ _ _ _ _ Hne Hmm)
    as (Hall & (rn & Hrn & <-) & (rx & Hrx & <-)).
  unfold int_keys in Hint. rewrite Forall_forall in Hint.
  split_and!; [by apply Hint|by apply Hint| |done|].
  - apply (Hall rx Hrx).
  - intros Hspan. by apply Hspan.
Qed.

(** Ordering by key and input order within a key pin the result down. *)
Lemma dsort_is_stable_sort (f : record → Z) R arr :
  Forall (λ r, 0 ≤ f r < R) arr →
  (∀ a b, a ∈ arr → b ∈ arr → f a < f b → key a ≤ key b) →
  (∀ a b, a ∈ arr → b ∈ arr → key a = key b → f a = f b) →
  (∀ a b, a ∈ arr → b ∈ arr → f a = f b → key a ≤ key b) →
  dsort f R arr = stable_sort arr.
Proof.
  intros Hin Hlt Heq Hcl. apply stable_sort_unique.
  - apply dsort_sorted_by; [|done]. intros j.
    apply (sorted_by_weaken f).
    + intros a b [<- Ha]%list_elem_of_filter [Hb' Hb]%list_elem_of_filter _.
      by apply Hcl.
    + apply sorted_by_const with j, Forall_forall.
      by intros r [? _]%list_elem_of_filter.
  - intros k. unfold with_key. apply dsort_filter; [done|].
    intros a b Ha Hb ??. apply Heq; [done..|congruence].
Qed.

(** Past the [if (arr.empty()) return;] guard. *)
Lemma past_guard {B : Type} (arr : list record) (x y : B) :
  arr ≠ [] → match arr with [] => x | _ :: _ => y end = y.
Proof. by destruct arr. Qed.

(** ** 1. Counting sort (stable) *)

Section range_indexed.
Context (arr : list record) (mn mx : Z).
Hypothesis nonempty : arr ≠ [].
Hypothesis keys_int : int_keys arr.
Hypothesis span : span_fits arr.
Hypothesis bounds : getMinMax arr 0 0 = (mn, mx).

(** Under the hypotheses no operation of the range computation and of
    the index computation wraps. *)
Lemma range_exact : wrap (wrap (mx - mn) + 1) = mx - mn + 1.
Proof.
  destruct (bounds_facts arr mn mx nonempty keys_int bounds)
    as (Hmn & Hmx & Hle & _ & Hspan). specialize (Hspan span).
  unfold in_range, INT_MIN, INT_MAX in *.
  rewrite (wrap_in_range (mx - mn)) by (unfold in_range, INT_MIN, INT_MAX; lia).
  apply wrap_in_range. unfold in_range, INT_MIN, INT_MAX. lia.
Qed.

Lemma index_exact r : r ∈ arr → wrap (key r - mn) = key r - mn.
Proof.
  intros Hr.
  destruct (bounds_facts arr mn mx nonempty keys_int bounds)
    as (Hmn & Hmx & Hle & Hall & Hspan). specialize (Hspan span).
  specialize (Hall r Hr).
  apply wrap_in_range. unfold in_range, INT_MIN, INT_MAX in *. lia.
Qed.

Lemma index_in_range :
  Forall (λ r, 0 ≤ wrap (key r - mn) < mx - mn + 1) arr.
Proof.
  apply Forall_forall. intros r Hr. rewrite index_exact by done.
  destruct (bounds_facts arr mn mx nonempty keys_int bounds)
    as (_ & _ & _ & Hall & _). specialize (Hall r Hr). lia.
Qed.

Lemma dsort_index_is_stable_sort :
  dsort (λ r, wrap (key r - mn)) (mx - mn + 1) arr = stable_sort arr.
Proof.
  apply dsort_is_stable_sort; [apply index_in_range|..];
    intros a b Ha Hb; rewrite !index_exact by done; lia.
Qed.

End range_indexed.

Lemma countingSortStable_correct arr :
  int_keys arr → span_fits arr →
  countingSortStable arr = Some (stable_sort arr).
Proof.
  intros Hint Hspan. destruct (decide (arr = [])) as [->|Hne]; [done|].
  unfold countingSortStable. rewrite past_guard by done.
  destruct (getMinMax arr 0 0) as [mn mx] eqn:Hmm.
  rewrite (range_exact arr mn mx) by done.
  destruct (bounds_facts arr mn mx Hne Hint Hmm) as (_ & _ & Hle & _).
  rewrite vec_new_Some by lia. simpl.
  rewrite <-(dsort_index_is_stable_sort arr mn mx) by done.
  apply (counting_pass (λ r, wrap (key r - mn)) (mx - mn + 1) arr).
  - by apply index_in_range.
  - apply (holds_new (A := Z)), vec_new_Some. lia.
Qed.

(** ** Scattering into buckets and gathering them *)

Section scatter.
Context (f : record → Z) (R : Z).
Implicit Types (vs : list (list record)) (c : Z → list record).

Lemma push_at_holds vs c i r :
  holds vs R c → 0 ≤ i < R →
  ∃ vs', push_at vs i r = Some vs'
         ∧ holds vs' R (λ j, if decide (j = i) then c j ++ [r] else c j).
Proof.
  intros Hc Hi. unfold push_at. rewrite (proj2 Hc i Hi). simpl.
  destruct (holds_set _ _ _ i (c i ++ [r]) Hc Hi) as (vs' & -> & Hc').
  eexists. split; [done|]. eapply holds_ext; [|exact Hc'].
  intros j _. simpl. case_decide; congruence.
Qed.

Lemma scatter_holds l : ∀ vs c,
  holds vs R c → Forall (λ r, 0 ≤ f r < R) l →
  ∃ vs', foldM (λ vs r, push_at vs (f r) r) l vs = Some vs'
         ∧ holds vs' R (λ j, c j ++ filter (λ r, f r = j) l).
Proof.
  induction l as [|r l IH]; intros vs c Hc Hl; simpl.
  - eexists. split; [done|]. eapply holds_ext; [|exact Hc].
    intros. by rewrite filter_nil, app_nil_r.
  - apply Forall_cons in Hl as [Hr Hl].
    destruct (push_at_holds _ _ (f r) r Hc Hr) as (vs1 & -> & Hc1). simpl.
    destruct (IH _ _ Hc1 Hl) as (vs' & -> & Hc').
    eexists. split; [done|]. eapply holds_ext; [|exact Hc'].
    intros j _. simpl. rewrite filter_cons.
    destruct (decide (j = f r)) as [->|Hne].
    + rewrite decide_True by done. by rewrite <-app_assoc.
    + by rewrite decide_False by congruence.
Qed.

Lemma classes_hold {B : Type} (g : Z → B) :
  0 ≤ R → holds (g <$> seqZ 0 R) R g.
Proof.
  intros HR. split; [rewrite length_fmap, length_seqZ; lia|].
  intros j Hj. rewrite vec_get_lookup, list_lookup_fmap by lia.
  rewrite lookup_seqZ_lt by lia. simpl. f_equal. f_equal. lia.
Qed.

(** After the scatter loop, bucket [j] holds the records of class [j]
    in input order. *)
Lemma scatter_classes arr vs0 :
  holds vs0 R (λ _, []) → Forall (λ r, 0 ≤ f r < R) arr →
  foldM (λ vs r, push_at vs (f r) r) arr vs0
  = Some ((λ j, filter (λ r, f r = j) arr) <$> seqZ 0 R).
Proof.
  intros Hvs Harr.
  destruct (scatter_holds arr _ _ Hvs Harr) as (vs' & -> & Hvs').
  f_equal. eapply holds_eq; [exact Hvs'|].
  apply (classes_hold (λ j, filter (λ r, f r = j) arr)).
  destruct Hvs. lia.
Qed.

End scatter.

Lemma emit_step (k : nat) a x :
  (k < length a)%nat →
  emit (Z.of_nat k, a) x = Some (Z.of_nat (S k), <[k := x]> a).
Proof.
  intros Hk. unfold emit. simpl. rewrite vec_set_Some by lia. simpl.
  rewrite Nat2Z.id. do 2 f_equal. lia.
Qed.

Lemma emit_all items : ∀ (k : nat) a,
  (k + length items ≤ length a)%nat →
  foldM emit items (Z.of_nat k, a)
  = Some (Z.of_nat (k + length items),
          take k a ++ items ++ drop (k + length items) a).
Proof.
  induction items as [|x items IH]; intros k a Hk; simpl in *.
  - by rewrite Nat.add_0_r, take_drop.
  - rewrite emit_step by lia. simpl.
    rewrite IH by (rewrite length_insert; lia).
    f_equal. f_equal; [lia|].
    rewrite (take_S_r _ _ x) by (apply list_lookup_insert_eq; lia).
    rewrite take_insert_ge, drop_insert_lt by lia.
    replace (S k + length items)%nat with (k + S (length items))%nat by lia.
    by rewrite <-app_assoc.
Qed.

(** Gathering the buckets one after the other, each through [g], fills
    the array with the concatenation. *)
Lemma gather (g : list record → list record) blocks :
  (∀ b, length (g b) = length b) →
  ∀ (k : nat) a, (k + length (mjoin blocks) ≤ length a)%nat →
    foldM (λ st b, foldM emit (g b) st) blocks (Z.of_nat k, a)
    = Some (Z.of_nat (k + length (mjoin blocks)),
            take k a ++ mjoin (g <$> blocks)
                     ++ drop (k + length (mjoin blocks)) a).
Proof.
  intros Hg. induction blocks as [|b blocks IH]; intros k a Hk; simpl in *.
  - by rewrite Nat.add_0_r, take_drop.
  - rewrite length_app in Hk.
    rewrite emit_all by (rewrite Hg; lia). simpl. rewrite Hg.
    rewrite IH by (rewrite !length_app, length_take, length_drop, Hg; lia).
    rewrite !length_app. f_equal. f_equal; [lia|].
    rewrite (app_assoc (take k a)).
    rewrite take_app_length' by (rewrite length_app, length_take, Hg; lia).
    rewrite <-!app_assoc. do 3 f_equal.
    rewrite (app_assoc (take k a)).
    rewrite drop_app_ge by (rewrite length_app, length_take, Hg; lia).
    rewrite length_app, length_take, Hg, drop_drop. f_equal. lia.
Qed.

Lemma gather_all (g : list record → list record) blocks a :
  (∀ b, length (g b) = length b) →
  length (mjoin blocks) = length a →
  foldM (λ st b, foldM emit (g b) st) blocks (0, a)
  ≫= (λ st, Some st.2) = Some (mjoin (g <$> blocks)).
Proof.
  intros Hg Hlen. pose proof (gather g blocks Hg 0 a) as Hrun.
  change (Z.of_nat 0) with 0 in Hrun. rewrite Hrun by (simpl; lia). simpl.
  rewrite Hlen, drop_all, app_nil_r. done.
Qed.

(** ** 5. Pigeonhole sort *)

Lemma pigeonholeSort_correct arr :
  int_keys arr → span_fits arr →
  pigeonholeSort arr = Some (stable_sort arr).
Proof.
  intros Hint Hspan. destruct (decide (arr = [])) as [->|Hne]; [done|].
  unfold pigeonholeSort. rewrite past_guard by done.
  destruct (getMinMax arr 0 0) as [mn mx] eqn:Hmm.
  rewrite (range_exact arr mn mx) by done.
  destruct (bounds_facts arr mn mx Hne Hint Hmm) as (_ & _ & Hle & _).
  rewrite vec_new_Some by lia. simpl.
  rewrite (scatter_classes (λ r, wrap (key r - mn)) (mx - mn + 1));
    [|apply (holds_new (A := list record)), vec_new_Some; lia
     |by apply index_in_range].
  simpl. rewrite <-(dsort_index_is_stable_sort arr mn mx) by done.
  pose proof (gather_all (λ b, b)
    ((λ j, filter (λ r, wrap (key r - mn) = j) arr) <$> seqZ 0 (mx - mn + 1))
    arr) as Hg.
  simpl in Hg. rewrite Hg; [|done|].
  - unfold dsort. f_equal. f_equal. apply list_eq. intros i.
    rewrite list_lookup_fmap. by destruct (_ !! i).
  - change (length (dsort (λ r, wrap (key r - mn)) (mx - mn + 1) arr)
            = length arr).
    by rewrite dsort_perm by (by apply index_in_range).
Qed.

(** ** 4. Bucket sort *)

Section bsort.
Context (f : record → Z).
Implicit Types (l : list record).

Lemma bsort_succ (n : nat) l :
  bsort f (Z.of_nat (S n)) l
  = bsort f (Z.of_nat n) l
    ++ stable_sort (filter (λ r, f r = Z.of_nat n) l).
Proof.
  unfold bsort. rewrite seqZ_S, fmap_app, join_app. simpl.
  by rewrite app_nil_r, Z.add_0_l.
Qed.

Lemma bsort_perm_dsort (n : nat) l :
  bsort f (Z.of_nat n) l ≡ₚ dsort f (Z.of_nat n) l.
Proof.
  induction n as [|n IH]; [done|].
  by rewrite bsort_succ, dsort_succ, IH, stable_sort_perm.
Qed.

Lemma bsort_with_key (n : nat) l k :
  with_key k (bsort f (Z.of_nat n) l) = with_key k (dsort f (Z.of_nat n) l).
Proof.
  induction n as [|n IH]; [done|].
  rewrite bsort_succ, dsort_succ. unfold with_key in *.
  rewrite !filter_app, IH. f_equal. apply stable_sort_stable.
Qed.

Lemma bsort_sorted (n : nat) l :
  (∀ a b, a ∈ l → b ∈ l → f a < f b → key a ≤ key b) →
  sorted_by key (bsort f (Z.of_nat n) l).
Proof.
  intros Hcross. induction n as [|n IH]; [constructor|].
  rewrite bsort_succ. apply StronglySorted_app.
  split_and!; [|exact IH|apply stable_sort_sorted].
  intros a b Ha Hb.
  rewrite bsort_perm_dsort in Ha. apply elem_of_dsort in Ha as [Ha Hfa].
  rewrite stable_sort_perm in Hb. apply list_elem_of_filter in Hb as [Hfb Hb].
  apply Hcross; [done..|lia].
Qed.

(** With an index that grows with the key, bucket sort is the
    reference sort. *)
Lemma bsort_is_stable_sort R l :
  Forall (λ r, 0 ≤ f r < R) l →
  (∀ a b, a ∈ l → b ∈ l → f a < f b → key a ≤ key b) →
  (∀ a b, a ∈ l → b ∈ l → key a = key b → f a = f b) →
  bsort f R l = stable_sort l.
Proof.
  intros Hin Hcross Heq.
  destruct (decide (0 ≤ R)) as [HR|HR].
  - rewrite <-(Z2Nat.id R) by done. apply stable_sort_unique.
    + by apply bsort_sorted.
    + intros k. rewrite bsort_with_key, Z2Nat.id by done.
      unfold with_key. apply dsort_filter; [done|].
      intros a b Ha Hb ??. apply Heq; [done..|congruence].
  - destruct l as [|r l]; [unfold bsort; by rewrite seqZ_nil by lia|].
    apply Forall_cons in Hin as [? _]. lia.
Qed.

End bsort.

Lemma span_fits_diff arr : span_fits arr → diff_fits arr.
Proof. intros H a b Ha Hb. specialize (H a b Ha Hb). lia. Qed.

Section bucket_index.
Context (arr : list record) (mn mx : Z).
Hypothesis nonempty : arr ≠ [].
Hypothesis keys_int : int_keys arr.
Hypothesis diffs : diff_fits arr.
Hypothesis bounds : getMinMax arr 0 0 = (mn, mx).

Let n : Z := Z.of_nat (length arr).
Let range : Z := mx - mn + 1.

Lemma bucket_n_pos : 0 < n.
Proof. subst n. destruct arr; [done|]. simpl length. lia. Qed.

Lemma bucket_key_bounds r : r ∈ arr → 0 ≤ key r - mn < range.
Proof.
  intros Hr. destruct (getMinMax_spec _ _ _ _ _ nonempty bounds) as (Hall & _).
  specialize (Hall r Hr). subst range. lia.
Qed.

Lemma bucket_index_exact r :
  r ∈ arr → bucket_index mn n range r = ((key r - mn) * n) `div` range.
Proof.
  intros Hr. pose proof (bucket_key_bounds r Hr) as Hk.
  pose proof bucket_n_pos as Hn.
  destruct (getMinMax_spec _ _ _ _ _ nonempty bounds)
    as (Hall & (rn & Hrn & Hkn) & _).
  pose proof (diffs r rn Hr Hrn) as Hd. rewrite Hkn in Hd.
  unfold bucket_index.
  rewrite wrap_in_range by (unfold in_range, INT_MIN, INT_MAX in *; lia).
  rewrite Z.quot_div_nonneg by nia.
  assert (((key r - mn) * n) `div` range < n) as Hlt.
  { apply Z.div_lt_upper_bound; [lia|nia]. }
  destruct (Z.geb_spec (((key r - mn) * n) `div` range) n); [lia|done].
Qed.

Lemma bucket_index_range :
  Forall (λ r, 0 ≤ bucket_index mn n range r < n) arr.
Proof.
  apply Forall_forall. intros r Hr. rewrite bucket_index_exact by done.
  pose proof (bucket_key_bounds r Hr) as Hk. pose proof bucket_n_pos as Hn.
  split; [apply Z.div_pos; nia|apply Z.div_lt_upper_bound; [lia|nia]].
Qed.

Lemma bucket_index_mono a b :
  a ∈ arr → b ∈ arr → key a ≤ key b →
  bucket_index mn n range a ≤ bucket_index mn n range b.
Proof.
  intros Ha Hb Hab. rewrite !bucket_index_exact by done.
  pose proof (bucket_key_bounds a Ha). pose proof bucket_n_pos.
  apply Z.div_le_mono; nia.
Qed.

Lemma bsort_bucket_is_stable_sort :
  bsort (bucket_index mn n range) n arr = stable_sort arr.
Proof.
  apply bsort_is_stable_sort; [apply bucket_index_range|..].
  - intros a b Ha Hb Hlt. destruct (decide (key a ≤ key b)); [done|].
    pose proof (bucket_index_mono b a Hb Ha). lia.
  - intros a b Ha Hb Hab.
    pose proof (bucket_index_mono a b Ha Hb).
    pose proof (bucket_index_mono b a Hb Ha). lia.
Qed.

End bucket_index.

Lemma bucketSort_correct arr :
  int_keys arr → diff_fits arr →
  bucketSort arr = Some (stable_sort arr).
Proof.
  intros Hint Hdiff. destruct (decide (arr = [])) as [->|Hne]; [done|].
  unfold bucketSort. rewrite past_guard by done.
  destruct (getMinMax arr 0 0) as [mn mx] eqn:Hmm.
  set (n := Z.of_nat (length arr)). set (range := mx - mn + 1).
  rewrite (scatter_classes (bucket_index mn n range) n);
    [| |by apply bucket_index_range].
  2:{ subst n. rewrite Nat2Z.id. split; [by rewrite length_replicate|].
      intros j Hj. rewrite vec_get_lookup by lia.
      apply lookup_replicate_2. lia. }
  simpl. rewrite <-(bsort_bucket_is_stable_sort arr mn mx) by done.
  fold n range.
  rewrite (gather_all stable_sort); [|apply stable_sort_length|].
  - unfold bsort. by rewrite <-list_fmap_compose.
  - change (length (dsort (bucket_index mn n range) n arr) = length arr).
    by rewrite dsort_perm by (by apply bucket_index_range).
Qed.

(** ** 3. LSD radix sort *)

Lemma radix_loop_S fuel maxKey exp arr :
  radix_loop (S fuel) maxKey exp arr
  = if exp =? 0 then None
    else if maxKey `quot` exp >? 0 then
      arr' ← radix_pass exp arr;
      radix_loop fuel maxKey (wrap (exp * 10)) arr'
    else Some arr.
Proof. reflexivity. Qed.

Lemma digit_div E r :
  0 < E → 0 ≤ key r → digit E r = (key r `div` E) `mod` 10.
Proof.
  intros HE Hr. unfold digit.
  rewrite Z.quot_div_nonneg by lia.
  apply Z.rem_mod_nonneg; [|lia]. apply Z.div_pos; lia.
Qed.

Lemma digit_range E r : 0 < E → 0 ≤ key r → 0 ≤ digit E r < 10.
Proof.
  intros HE Hr. rewrite digit_div by done. apply Z.mod_pos_bound. lia.
Qed.

(** The digit at [E] is what [key mod (10 E)] adds to [key mod E]. *)
Lemma digit_split E r :
  0 < E → 0 ≤ key r →
  key r `mod` (E * 10) = key r `mod` E + E * digit E r.
Proof.
  intros HE Hr. rewrite digit_div by done. apply Z.rem_mul_r; lia.
Qed.

(** Once [10 E] exceeds every [int], the digit grows with the key. *)
Lemma digit_mono E a b :
  0 < E → INT_MAX < E * 10 → 0 ≤ key a → key a ≤ key b → key b ≤ INT_MAX →
  digit E a ≤ digit E b.
Proof.
  intros HE HE' Ha Hab Hb. rewrite !digit_div by lia.
  assert (∀ x, 0 ≤ x ≤ INT_MAX → (x `div` E) `mod` 10 = x `div` E) as Hsmall.
  { intros x Hx. apply Z.mod_small. split; [apply Z.div_pos; lia|].
    apply Z.div_lt_upper_bound; lia. }
  rewrite !Hsmall by lia. apply Z.div_le_mono; lia.
Qed.

Lemma radix_pass_dsort E arr :
  0 < E → Forall (λ r, 0 ≤ key r) arr →
  radix_pass E arr = Some (dsort (digit E) 10 arr).
Proof.
  intros HE Harr. unfold radix_pass.
  apply (counting_pass (digit E) 10 arr).
  - eapply Forall_impl; [exact Harr|]. intros r Hr. by apply digit_range.
  - by apply (holds_new (A := Z) 10 0).
Qed.

(** Leaving the loop: [maxKey / exp] is not positive. *)
Lemma quot_stop E m : 0 < E → 0 ≤ m → m `quot` E ≤ 0 → m < E.
Proof.
  intros HE Hm Hq. rewrite Z.quot_div_nonneg in Hq by lia.
  destruct (decide (m < E)); [done|].
  pose proof (Z.div_le_lower_bound m E 1). lia.
Qed.

Section radix_loop.
Context (arr0 : list record) (maxKey : Z).
Hypothesis keys0 : Forall (λ r, 0 ≤ key r ≤ maxKey) arr0.
Hypothesis maxKey_int : 0 ≤ maxKey ≤ INT_MAX.
Implicit Types (l : list record) (E M : Z).

Lemma inv_keys l : l ≡ₚ arr0 → Forall (λ r, 0 ≤ key r ≤ maxKey) l.
Proof. intros ->. exact keys0. Qed.

Lemma inv_digits E l :
  0 < E → l ≡ₚ arr0 → Forall (λ r, 0 ≤ digit E r < 10) l.
Proof.
  intros HE Hl. eapply Forall_impl; [exact (inv_keys l Hl)|].
  intros r Hr. simpl in Hr. apply digit_range; lia.
Qed.

Lemma pass_stable E l :
  0 < E → l ≡ₚ arr0 → stable_wrt arr0 l →
  stable_wrt arr0 (dsort (digit E) 10 l).
Proof.
  intros HE Hl Hst k. rewrite <-Hst. unfold with_key.
  apply dsort_filter; [by apply inv_digits|].
  intros a b _ _ Ha Hb. unfold digit. by rewrite Ha, Hb.
Qed.

Lemma pass_inv_start : pass_inv arr0 1 arr0.
Proof.
  split_and!; [done| |done].
  apply sorted_by_const with 0, Forall_forall. intros r _. apply Z.mod_1_r.
Qed.

Lemma pass_inv_step E l :
  0 < E → pass_inv arr0 E l → pass_inv arr0 (E * 10) (dsort (digit E) 10 l).
Proof.
  intros HE (Hperm & Hsort & Hst).
  pose proof (inv_keys l Hperm) as Hkeys. rewrite Forall_forall in Hkeys.
  pose proof (inv_digits E l HE Hperm) as Hdig.
  split_and!.
  - by rewrite dsort_perm.
  - apply dsort_sorted_by.
    + intros j. apply (sorted_by_weaken (λ r, key r `mod` E));
        [|by apply sorted_by_filter].
      intros a b [Hda Ha]%list_elem_of_filter [Hdb Hb]%list_elem_of_filter Hab.
      pose proof (Hkeys a Ha). pose proof (Hkeys b Hb).
      rewrite !digit_split by lia. nia.
    + intros a b Ha Hb Hab.
      pose proof (Hkeys a Ha). pose proof (Hkeys b Hb).
      rewrite !digit_split by lia.
      pose proof (Z.mod_pos_bound (key a) E HE).
      pose proof (Z.mod_pos_bound (key b) E HE). nia.
  - by apply pass_stable.
Qed.

Lemma pass_inv_done M l : maxKey < M → pass_inv arr0 M l → done_inv arr0 l.
Proof.
  intros HM (Hperm & Hsort & Hst). split_and!; [done| |done].
  pose proof (inv_keys l Hperm) as Hkeys. rewrite Forall_forall in Hkeys.
  apply (sorted_by_weaken (λ r, key r `mod` M)); [|done].
  intros a b Ha Hb. pose proof (Hkeys a Ha). pose proof (Hkeys b Hb).
  rewrite !Z.mod_small by lia. done.
Qed.

(** The rounds after [exp = 10^9]: [exp] has wrapped, its digit still
    grows with the key, and the pass moves nothing. *)
Lemma done_pass E l :
  0 < E → INT_MAX < E * 10 → done_inv arr0 l →
  radix_pass E l = Some l.
Proof.
  intros HE HE' (Hperm & Hsort & Hst).
  pose proof (inv_keys l Hperm) as Hkeys.
  rewrite radix_pass_dsort;
    [|done|eapply Forall_impl; [exact Hkeys|]; simpl; lia].
  f_equal. apply dsort_of_sorted; [by apply inv_digits|].
  apply (sorted_by_weaken key); [|done].
  rewrite Forall_forall in Hkeys.
  intros a b Ha Hb Hab. pose proof (Hkeys a Ha). pose proof (Hkeys b Hb).
  apply digit_mono; lia.
Qed.

Lemma radix_loop_tail l :
  done_inv arr0 l → radix_loop 3 maxKey 1410065408 l = Some l.
Proof.
  intros Hl. unfold INT_MAX in *.
  rewrite radix_loop_S. change (1410065408 =? 0) with false. cbv iota.
  destruct (maxKey `quot` 1410065408 >? 0); [|done].
  rewrite done_pass by (done || unfold INT_MAX; lia). rewrite bind_Some.
  change (wrap (1410065408 * 10)) with 1215752192.
  rewrite radix_loop_S. change (1215752192 =? 0) with false. cbv iota.
  destruct (maxKey `quot` 1215752192 >? 0); [|done].
  rewrite done_pass by (done || unfold INT_MAX; lia). rewrite bind_Some.
  change (wrap (1215752192 * 10)) with (-727379968).
  rewrite radix_loop_S. change (-727379968 =? 0) with false. cbv iota.
  destruct (Z.gtb_spec (maxKey `quot` (-727379968)) 0) as [Hpos|]; [|done].
  change (-727379968) with (- (727379968)) in Hpos.
  rewrite Z.quot_opp_r in Hpos by lia.
  pose proof (Z.quot_pos maxKey 727379968). lia.
Qed.

Lemma radix_loop_regular (j : nat) : ∀ (k : nat) l,
  (k + j = 9)%nat → pass_inv arr0 (10 ^ Z.of_nat k) l →
  ∃ l', radix_loop (j + 4) maxKey (10 ^ Z.of_nat k) l = Some l'
        ∧ done_inv arr0 l'.
Proof.
  induction j as [|j IH]; intros k l Hk Hinv.
  all: assert (0 < 10 ^ Z.of_nat k) as Hpos by (apply Z.pow_pos_nonneg; lia).
  all: assert (10 ^ Z.of_nat k ≤ 10 ^ 9) as Hle
      by (apply Z.pow_le_mono_r; lia).
  all: assert (10 ^ Z.of_nat (S k) = 10 ^ Z.of_nat k * 10) as Hsucc
      by (rewrite Nat2Z.inj_succ, Z.pow_succ_r by lia; lia).
  all: change (10 ^ 9) with 1000000000 in Hle.
  all: pose proof (inv_keys l (proj1 Hinv)) as Hkeys.
  all: simpl Nat.add; rewrite radix_loop_S.
  all: rewrite (proj2 (Z.eqb_neq _ 0)) by lia.
  all: destruct (Z.gtb_spec (maxKey `quot` 10 ^ Z.of_nat k) 0) as [Hgo|Hstop];
    [|exists l; split; [done|];
      apply (pass_inv_done (10 ^ Z.of_nat k)); [|done];
      apply quot_stop; [done|lia|done]].
  all: rewrite radix_pass_dsort;
      [|done|eapply Forall_impl; [exact Hkeys|]; simpl; lia].
  all: rewrite bind_Some; apply pass_inv_step in Hinv; [|done].
  - assert (k = 9%nat) as -> by lia.
    change (wrap (10 ^ Z.of_nat 9 * 10)) with 1410065408.
    assert (done_inv arr0 (dsort (digit (10 ^ Z.of_nat 9)) 10 l)) as Hdone.
    { apply (pass_inv_done (10 ^ Z.of_nat 9 * 10)); [|done].
      change (10 ^ Z.of_nat 9 * 10) with 10000000000.
      unfold INT_MAX in *. lia. }
    eexists. split; [by apply radix_loop_tail|done].
  - rewrite wrap_in_range
      by (unfold in_range, INT_MIN, INT_MAX;
          assert (10 ^ Z.of_nat k ≤ 10 ^ 8)
            by (apply Z.pow_le_mono_r; lia);
          change (10 ^ 8) with 100000000 in *; lia).
    rewrite <-Hsucc in Hinv |- *. apply IH; [lia|done].
Qed.

Lemma radix_loop_correct :
  radix_loop radix_fuel maxKey 1 arr0 = Some (stable_sort arr0).
Proof.
  destruct (radix_loop_regular 9 0 arr0) as (l & Hrun & _ & Hs & Hst);
    [done|exact pass_inv_start|].
  change (radix_loop radix_fuel maxKey 1 arr0 = Some l) in Hrun.
  rewrite Hrun. f_equal. by apply stable_sort_unique.
Qed.

End radix_loop.

(** *** The shift of negative keys *)

Lemma wrap_add_r x y : wrap (x + wrap y) = wrap (x + y).
Proof.
  unfold wrap.
  replace (x + ((y + 2147483648) `mod` 4294967296 - 2147483648) + 2147483648)
    with (x + (y + 2147483648) `mod` 4294967296) by lia.
  rewrite Z.add_mod_idemp_r by lia. do 2 f_equal. lia.
Qed.

Lemma insert_by_key_fmap (g : record → record) x l :
  (∀ y, y ∈ l → (key (g y) <? key (g x)) = (key y <? key x)) →
  insert_by_key (g x) (g <$> l) = g <$> insert_by_key x l.
Proof.
  induction l as [|y l IH]; intros Hg; [done|].
  simpl. rewrite (Hg y) by left.
  destruct (key y <? key x); [|done].
  rewrite fmap_cons. f_equal. apply IH. intros. apply Hg. by right.
Qed.

(** The reference sort commutes with a change of keys that keeps
    their order. *)
Lemma stable_sort_fmap (g : record → record) l :
  (∀ a b, a ∈ l → b ∈ l → (key (g a) <? key (g b)) = (key a <? key b)) →
  stable_sort (g <$> l) = g <$> stable_sort l.
Proof.
  induction l as [|x l IH]; intros Hg; [done|].
  rewrite fmap_cons. simpl.
  rewrite IH by (intros; apply Hg; by right).
  apply insert_by_key_fmap. intros y Hy. rewrite stable_sort_perm in Hy.
  apply Hg; [by right|left].
Qed.

Section radix_shift.
Context (arr : list record) (mn mx : Z).
Hypothesis nonempty : arr ≠ [].
Hypothesis keys_int : int_keys arr.
Hypothesis span : span_fits arr.
Hypothesis bounds : getMinMax arr 0 0 = (mn, mx).

(** [shift] as the code computes it, and the amount by which the
    keys really move. *)
Let shift : Z := if mn <? 0 then wrap (- mn) else 0.
Let base : Z := if mn <? 0 then mn else 0.

Lemma shifted_key r : r ∈ arr → key (add_key shift r) = key r - base.
Proof.
  intros Hr. unfold add_key, shift, base. simpl.
  destruct (bounds_facts arr mn mx nonempty keys_int bounds)
    as (Hmn & Hmx & Hle & Hall & _).
  destruct (Z.ltb_spec mn 0).
  - rewrite wrap_add_r.
    replace (key r + - mn) with (key r - mn) by lia.
    by apply (index_exact arr mn mx).
  - specialize (Hall r Hr). apply wrap_in_range.
    unfold in_range, INT_MIN, INT_MAX in *. lia.
Qed.

Lemma shifted_max : wrap (mx + shift) = mx - base.
Proof.
  destruct (getMinMax_spec _ _ _ _ _ nonempty bounds)
    as (_ & _ & (rx & Hrx & Hkx)).
  rewrite <-Hkx. apply (shifted_key rx Hrx).
Qed.

Lemma shifted_keys_bounds :
  Forall (λ r, 0 ≤ key r ≤ mx - base) (add_key shift <$> arr).
Proof.
  apply Forall_fmap, Forall_forall. intros r Hr.
  change (0 ≤ key (add_key shift r) ≤ mx - base).
  rewrite shifted_key by done.
  destruct (bounds_facts arr mn mx nonempty keys_int bounds)
    as (_ & _ & _ & Hall & _). specialize (Hall r Hr).
  unfold base. destruct (Z.ltb_spec mn 0); lia.
Qed.

Lemma shifted_max_int : 0 ≤ mx - base ≤ INT_MAX.
Proof.
  destruct (bounds_facts arr mn mx nonempty keys_int bounds)
    as (Hmn & Hmx & Hle & _ & Hspan). specialize (Hspan span).
  unfold base, in_range, INT_MIN, INT_MAX in *.
  destruct (Z.ltb_spec mn 0); lia.
Qed.

(** What [radixSortLSD] returns, the restoring step left as it is. *)
Lemma radixSortLSD_shifted :
  radixSortLSD arr
  = Some (if shift >? 0
          then add_key (- shift) <$> stable_sort (add_key shift <$> arr)
          else stable_sort (add_key shift <$> arr)).
Proof.
  unfold radixSortLSD. rewrite past_guard by done. rewrite bounds.
  fold shift. rewrite shifted_max.
  rewrite (radix_loop_correct _ _ shifted_keys_bounds shifted_max_int).
  done.
Qed.

Lemma shifted_stable_sort :
  stable_sort (add_key shift <$> arr) = add_key shift <$> stable_sort arr.
Proof.
  apply stable_sort_fmap. intros a b Ha Hb.
  rewrite !shifted_key by done.
  destruct (Z.ltb_spec (key a) (key b)), (Z.ltb_spec (key a - base) (key b - base));
    (done || lia).
Qed.

(** With [-minKey] representable the shift is taken back exactly. *)
Lemma radixSortLSD_restored :
  INT_MIN < mn → radixSortLSD arr = Some (stable_sort arr).
Proof.
  intros Hmin. rewrite radixSortLSD_shifted, shifted_stable_sort. f_equal.
  destruct (bounds_facts arr mn mx nonempty keys_int bounds)
    as (Hmn & Hmx & Hle & Hall & _).
  assert (shift = - base) as Hshift.
  { unfold shift, base. destruct (Z.ltb_spec mn 0); [|done].
    apply wrap_in_range. unfold in_range, INT_MIN, INT_MAX in *. lia. }
  assert (∀ r, r ∈ stable_sort arr → add_key (- shift) (add_key shift r) = r)
    as Hback.
  { intros r Hr. rewrite stable_sort_perm in Hr.
    pose proof (shifted_key r Hr) as Hk. pose proof (Hall r Hr).
    pose proof keys_int as Hki. unfold int_keys in Hki.
    rewrite Forall_forall in Hki. pose proof (Hki r Hr) as Hint.
    destruct r as [k i]. unfold add_key in *. simpl in *. rewrite Hk.
    f_equal. rewrite Hshift.
    replace (k - base + - - base) with k by lia. by apply wrap_in_range. }
  assert (∀ r, r ∈ stable_sort arr → shift = 0 → add_key shift r = r)
    as Hzero.
  { intros r Hr Hs. rewrite stable_sort_perm in Hr.
    pose proof (shifted_key r Hr) as Hk.
    destruct r as [k i]. unfold add_key in *. simpl in *. rewrite Hk.
    f_equal. lia. }
  destruct (Z.gtb_spec shift 0) as [Hpos|Hnpos].
  - rewrite <-list_fmap_compose. rewrite <-(list_fmap_id (stable_sort arr)) at 2.
    apply list_fmap_ext. intros i r Hr. simpl. apply Hback.
    by eapply list_elem_of_lookup_2.
  - assert (shift = 0) as Hs.
    { clear Hback Hzero. unfold shift, base in Hshift, Hnpos |- *.
      destruct (Z.ltb_spec mn 0); [lia|done]. }
    rewrite <-(list_fmap_id (stable_sort arr)) at 2.
    apply list_fmap_ext. intros i r Hr. simpl. apply Hzero; [|done].
    by eapply list_elem_of_lookup_2.
Qed.

(** With [minKey = INT_MIN] the negation wraps to [INT_MIN], the test
    [shift > 0] fails and the keys stay shifted. *)
Lemma radixSortLSD_unrestored :
  mn = INT_MIN →
  radixSortLSD arr = Some (stable_sort (add_key INT_MIN <$> arr)).
Proof.
  intros Hmin. rewrite radixSortLSD_shifted. unfold shift. by rewrite Hmin.
Qed.

End radix_shift.

Lemma radixSortLSD_correct arr :
  int_keys arr → span_fits arr → negatable arr →
  radixSortLSD arr = Some (stable_sort arr).
Proof.
  intros Hint Hspan Hneg. destruct (decide (arr = [])) as [->|Hne]; [done|].
  destruct (getMinMax arr 0 0) as [mn mx] eqn:Hmm.
  apply (radixSortLSD_restored arr mn mx); [done..|].
  destruct (getMinMax_spec _ _ _ _ _ Hne Hmm) as (_ & (rn & Hrn & <-) & _).
  unfold negatable in Hneg. rewrite Forall_forall in Hneg. by apply Hneg.
Qed.

(** ** 2. Counting sort (non-stable) *)

Lemma drain_eq fuel minVal i count index arr :
  drain fuel minVal i (count, index, arr)
  = c ← vec_get count i;
    if c >? 0 then
      match fuel with
      | O => None
      | S fuel' =>
        arr' ← set_key arr index (wrap (i + minVal));
        count' ← vec_set count i (c - 1);
        drain fuel' minVal i (count', index + 1, arr')
      end
    else Some (count, index, arr).
Proof. by destruct fuel. Qed.

(** *** The fuel of [drain] *)

Lemma set_key_past_end arr index k :
  Z.of_nat (length arr) ≤ index → set_key arr index k = None.
Proof.
  intros Hi. unfold set_key, vec_get.
  destruct (0 <=? index); [|done]. by rewrite lookup_ge_None_2 by lia.
Qed.

Lemma set_key_length arr index k arr' :
  set_key arr index k = Some arr' → length arr' = length arr.
Proof.
  unfold set_key. destruct (vec_get arr index) as [r|]; [|done]. simpl.
  intros [_ ->]%vec_set_inv. apply length_insert.
Qed.

(** Fuel that covers the positions from [index] to the end is as good
    as any: a round past it would write past the end. *)
Lemma drain_fuel (f1 : nat) : ∀ (f2 : nat) minVal i count index arr,
  0 ≤ index →
  Z.of_nat (length arr) - index ≤ Z.of_nat f1 →
  Z.of_nat (length arr) - index ≤ Z.of_nat f2 →
  drain f1 minVal i (count, index, arr) = drain f2 minVal i (count, index, arr).
Proof.
  induction f1 as [|f1 IH]; intros f2 minVal i count index arr Hi Hf1 Hf2.
  all: rewrite !drain_eq; destruct (vec_get count i) as [c|]; [|done].
  all: rewrite !bind_Some; destruct (c >? 0); [|done].
  - destruct f2 as [|f2]; [done|]. by rewrite set_key_past_end by lia.
  - destruct f2 as [|f2]; [by rewrite set_key_past_end by lia|].
    destruct (set_key arr index (wrap (i + minVal))) as [arr'|] eqn:Hset;
      [|done].
    rewrite !bind_Some. destruct (vec_set count i (c - 1)) as [count'|]; [|done].
    rewrite !bind_Some. apply set_key_length in Hset.
    apply IH; rewrite ?Hset; lia.
Qed.

(** *** The [id] fields are never written *)

Lemma set_key_ids arr index k arr' :
  set_key arr index k = Some arr' → id <$> arr' = id <$> arr.
Proof.
  unfold set_key. destruct (vec_get arr index) as [r|] eqn:Hget; [|done].
  simpl. intros [Hi ->]%vec_set_inv.
  rewrite vec_get_lookup in Hget by lia.
  rewrite list_fmap_insert. simpl. apply list_insert_id.
  by rewrite list_lookup_fmap, Hget.
Qed.

Lemma drain_ids fuel minVal i : ∀ st st',
  drain fuel minVal i st = Some st' → id <$> st'.2 = id <$> st.2.
Proof.
  induction fuel as [|fuel IH]; intros [[count index] arr] st';
    rewrite drain_eq; simpl.
  all: destruct (vec_get count i) as [c|]; [|done]; simpl.
  all: destruct (c >? 0); [|by intros [= <-]]; [done || idtac].
  destruct (set_key arr index (wrap (i + minVal))) as [arr1|] eqn:Hset;
    [|done]. simpl.
  destruct (vec_set count i (c - 1)) as [count1|]; [|done]. simpl.
  intros Hrun%IH. simpl in Hrun. rewrite Hrun. by eapply set_key_ids.
Qed.

Lemma countingSortUnstable_ids arr out :
  countingSortUnstable arr = Some out → id <$> out = id <$> arr.
Proof.
  destruct (decide (arr = [])) as [->|Hne]; [by intros [= <-]|].
  unfold countingSortUnstable. rewrite past_guard by done.
  destruct (getMinMax arr 0 0) as [mn mx].
  destruct (vec_new _ 0) as [count0|]; [|done]. simpl.
  destruct (foldM _ arr count0) as [count1|]; [|done]. simpl.
  destruct (foldM _ _ (count1, 0, arr)) as [st|] eqn:Hrun; [|done]. simpl.
  intros [= <-].
  apply (foldM_invariant (λ st, id <$> st.2 = id <$> arr) _ _ _ _) in Hrun;
    [done| |done].
  intros s1 s2 i Hs1 Hstep%drain_ids. congruence.
Qed.

(** *** What the draining loops write *)

Section drain.
Context (arr : list record) (mn mx : Z).
Hypothesis nonempty : arr ≠ [].
Hypothesis keys_int : int_keys arr.
Hypothesis span : span_fits arr.
Hypothesis bounds : getMinMax arr 0 0 = (mn, mx).

Let f : record → Z := λ r, wrap (key r - mn).
Let R : Z := mx - mn + 1.
Let n : Z := Z.of_nat (length arr).

(** The record that [arr] holds at a position, and the key that the
    sorted sequence holds there. *)
Let at_pos (pos : Z) : record := arr !!! Z.to_nat pos.
Let sorted_key (pos : Z) : Z := key (dsort f R arr !!! Z.to_nat pos).

Lemma arr_holds : holds arr n at_pos.
Proof.
  split; [done|]. intros pos Hpos. rewrite vec_get_lookup by lia.
  apply list_lookup_lookup_total_lt. lia.
Qed.

Lemma sorted_key_block j t :
  0 ≤ j < R → 0 ≤ t < occ f j arr →
  sorted_key (below f j arr + t) = wrap (j + mn).
Proof.
  intros Hj Ht. unfold sorted_key.
  pose proof (index_in_range arr mn mx nonempty keys_int span bounds) as Hin.
  assert (Forall (λ r, 0 ≤ f r) arr) as Hnn
    by (eapply Forall_impl; [exact Hin|]; intros r Hr; unfold f; simpl in *; lia).
  pose proof (dsort_get f (Z.to_nat R) arr j t Hnn) as Hget.
  rewrite Z2Nat.id in Hget by lia. specialize (Hget Hj Ht).
  pose proof (below_nonneg f j arr).
  rewrite vec_get_lookup in Hget by lia.
  destruct (filter (λ r, f r = j) arr !! Z.to_nat t) as [r|] eqn:Hr.
  - rewrite (list_lookup_total_correct _ _ _ Hget).
    apply list_elem_of_lookup_2, list_elem_of_filter in Hr as [Hfr Hr].
    unfold f in Hfr. rewrite (index_exact arr mn mx) in Hfr by done.
    replace (j + mn) with (key r) by lia. symmetry. apply wrap_in_range.
    pose proof keys_int as Hki. unfold int_keys in Hki.
    rewrite Forall_forall in Hki. by apply Hki.
  - apply lookup_ge_None in Hr. unfold occ in Ht. lia.
Qed.

Lemma drain_holds (cn : nat) i : ∀ fuel count cf index a af,
  (cn ≤ fuel)%nat → 0 ≤ i < R →
  holds count R cf → cf i = Z.of_nat cn →
  0 ≤ index → index + Z.of_nat cn ≤ n → holds a n af →
  ∃ count' a',
    drain fuel mn i (count, index, a)
    = Some (count', index + Z.of_nat cn, a')
    ∧ holds count' R (λ j, if decide (j = i) then 0 else cf j)
    ∧ holds a' n (λ pos, if decide (index ≤ pos < index + Z.of_nat cn)
                         then mkRecord (wrap (i + mn)) (id (af pos))
                         else af pos).
Proof.
  induction cn as [|cn IH];
    intros fuel count cf index a af Hfuel Hi Hcount Hcf Hindex Hend Ha;
    rewrite drain_eq, (proj2 Hcount i Hi), bind_Some, Hcf.
  - change (Z.of_nat 0 >? 0) with false. cbv iota.
    exists count, a. split_and!.
    + do 3 f_equal. lia.
    + eapply holds_ext; [|exact Hcount]. intros j _. simpl.
      case_decide; [subst; lia|done].
    + eapply holds_ext; [|exact Ha]. intros pos _. simpl.
      by rewrite decide_False by lia.
  - rewrite (proj2 (Z.gtb_lt _ _)) by lia.
    destruct fuel as [|fuel]; [lia|].
    unfold set_key. rewrite (proj2 Ha index) by lia. rewrite bind_Some.
    destruct (holds_set _ _ _ index
                (mkRecord (wrap (i + mn)) (id (af index))) Ha)
      as (a1 & -> & Ha1); [lia|]. rewrite bind_Some.
    destruct (holds_set _ _ _ i (Z.of_nat (S cn) - 1) Hcount Hi)
      as (count1 & -> & Hcount1). rewrite bind_Some.
    destruct (IH fuel _ _ (index + 1) _ _ ltac:(lia) Hi Hcount1
                ltac:(simpl; rewrite decide_True by done; lia)
                ltac:(lia) ltac:(lia) Ha1)
      as (count' & a' & -> & Hcount' & Ha').
    exists count', a'. split_and!.
    + do 3 f_equal. lia.
    + eapply holds_ext; [|exact Hcount']. intros j _. simpl.
      by case_decide.
    + eapply holds_ext; [|exact Ha']. intros pos _. simpl.
      destruct (decide (pos = index)) as [->|Hne].
      * rewrite decide_False, decide_True by lia. done.
      * destruct (decide (index + 1 ≤ pos < index + 1 + Z.of_nat cn));
          [rewrite decide_True by lia|rewrite decide_False by lia]; done.
Qed.

Lemma class_nonneg : Forall (λ r, 0 ≤ f r) arr.
Proof.
  pose proof (index_in_range arr mn mx nonempty keys_int span bounds) as Hin.
  eapply Forall_impl; [exact Hin|]. intros r Hr. unfold f. simpl in *. lia.
Qed.

(** After the rounds [i = 0 .. m - 1] of the outer loop. *)
Lemma drain_loop (m : nat) count0 :
  Z.of_nat m ≤ R → holds count0 R (λ j, occ f j arr) →
  ∃ count a,
    foldM (λ st i, drain (length arr) mn i st)
          (seqZ 0 (Z.of_nat m)) (count0, 0, arr)
    = Some (count, below f (Z.of_nat m) arr, a)
    ∧ holds count R (λ j, if decide (j < Z.of_nat m) then 0
                          else occ f j arr)
    ∧ holds a n (λ pos, if decide (pos < below f (Z.of_nat m) arr)
                        then mkRecord (sorted_key pos) (id (at_pos pos))
                        else at_pos pos).
Proof.
  intros Hm Hcount0. induction m as [|m IH].
  - exists count0, arr. rewrite below_none by apply class_nonneg.
    split_and!; [done| |].
    + eapply holds_ext; [|exact Hcount0]. intros j Hj. simpl.
      by rewrite decide_False by lia.
    + eapply holds_ext; [|exact arr_holds]. intros pos Hpos. simpl.
      by rewrite decide_False by lia.
  - destruct IH as (count & a & Hrun & Hcount & Ha); [lia|].
    rewrite seqZ_S, foldM_snoc, Hrun, bind_Some, Z.add_0_l.
    pose proof (occ_nonneg f (Z.of_nat m) arr) as Hocc.
    pose proof (below_nonneg f (Z.of_nat m) arr) as Hbelow.
    pose proof (below_le_length f (Z.of_nat m + 1) arr) as Hlen.
    rewrite below_succ in Hlen.
    pose proof (λ H1 H2 H4 H5 H6,
                  drain_holds (Z.to_nat (occ f (Z.of_nat m) arr))
                    (Z.of_nat m) (length arr) count _
                    (below f (Z.of_nat m) arr) a _
                    H1 H2 Hcount H4 H5 H6 Ha) as Hd.
    destruct Hd as (count' & a' & Hdrain & Hcount' & Ha').
    { unfold occ. rewrite Nat2Z.id. apply length_filter. }
    { lia. }
    { simpl. rewrite decide_False by lia. lia. }
    { done. }
    { fold n. lia. }
    rewrite Z2Nat.id in Hdrain, Ha' by done.
    replace (Z.of_nat (S m)) with (Z.of_nat m + 1) by lia.
    rewrite below_succ. exists count', a'. split_and!; [done| |].
    + eapply holds_ext; [|exact Hcount']. intros j Hj. simpl.
      destruct (decide (j = Z.of_nat m)) as [->|Hne].
      * by rewrite decide_True by lia.
      * destruct (decide (j < Z.of_nat m));
          [rewrite decide_True by lia|rewrite decide_False by lia]; done.
    + eapply holds_ext; [|exact Ha']. intros pos Hpos. simpl.
      destruct (decide (pos < below f (Z.of_nat m) arr)) as [Hlt|Hge].
      * rewrite decide_False, decide_True by lia. done.
      * destruct (decide (pos < below f (Z.of_nat m) arr
                                + occ f (Z.of_nat m) arr)) as [Hin|Hout].
        -- rewrite decide_True by lia. f_equal.
           rewrite <-(sorted_key_block (Z.of_nat m)
                        (pos - below f (Z.of_nat m) arr)) by lia.
           f_equal. lia.
        -- by rewrite decide_False by lia.
Qed.

Lemma countingSortUnstable_keys :
  ∃ out, countingSortUnstable arr = Some out
         ∧ key <$> out = key <$> stable_sort arr.
Proof.
  unfold countingSortUnstable. rewrite past_guard by done. rewrite bounds.
  rewrite (range_exact arr mn mx) by done. fold R.
  destruct (bounds_facts arr mn mx nonempty keys_int bounds)
    as (_ & _ & Hle & _).
  rewrite vec_new_Some by (unfold R; lia). rewrite bind_Some.
  destruct (frequency_holds f R arr (replicate (Z.to_nat R) 0) (λ _, 0))
    as (count1 & Hfreq & Hcount1).
  { apply (holds_new (A := Z)), vec_new_Some. unfold R. lia. }
  { apply (index_in_range arr mn mx); done. }
  unfold f in Hfreq at 1. cbv beta in Hfreq. rewrite Hfreq, bind_Some.
  destruct (drain_loop (Z.to_nat R) count1) as (count & a & Hrun & _ & Ha).
  { unfold R. lia. }
  { eapply holds_ext; [|exact Hcount1]. intros. simpl. lia. }
  rewrite Z2Nat.id in Hrun, Ha by (unfold R; lia).
  rewrite Hrun, bind_Some. simpl. exists a. split; [done|].
  rewrite <-(dsort_index_is_stable_sort arr mn mx) by done. fold f R.
  assert (below f R arr = n) as Hall.
  { apply below_all.
    pose proof (index_in_range arr mn mx nonempty keys_int span bounds) as Hin.
    eapply Forall_impl; [exact Hin|]. intros r Hr. unfold f, R. simpl in *. lia. }
  rewrite Hall in Ha. destruct Ha as [Hlen Hget].
  assert (length (dsort f R arr) = length arr) as HlenT.
  { rewrite dsort_perm; [done|].
    apply (index_in_range arr mn mx); done. }
  apply list_eq. intros i. rewrite !list_lookup_fmap.
  destruct (decide (i < length arr)%nat) as [Hi|Hi].
  - specialize (Hget (Z.of_nat i)).
    rewrite vec_get_lookup, Nat2Z.id, decide_True in Hget by (fold n; lia).
    rewrite Hget by (fold n; lia). simpl.
    rewrite (list_lookup_lookup_total_lt (dsort f R arr) i) by lia.
    simpl. unfold sorted_key. by rewrite Nat2Z.id.
  - rewrite !lookup_ge_None_2 by (fold n in Hlen; lia). done.
Qed.

End drain.

Lemma countingSortUnstable_correct arr :
  int_keys arr → span_fits arr →
  ∃ out, countingSortUnstable arr = Some out
         ∧ key <$> out = key <$> stable_sort arr
         ∧ id <$> out = id <$> arr.
Proof.
  intros Hint Hspan. destruct (decide (arr = [])) as [->|Hne].
  { by exists []. }
  destruct (getMinMax arr 0 0) as [mn mx] eqn:Hmm.
  destruct (countingSortUnstable_keys arr mn mx Hne Hint Hspan Hmm)
    as (out & Hrun & Hkeys).
  exists out. split_and!; [done..|]. by apply countingSortUnstable_ids.
Qed.

(** *** The fuel of [radix_loop] *)

Lemma exp_at_pos k : (k ≤ 11)%nat → 0 < exp_at k.
Proof.
  intros Hk. do 12 (destruct k as [|k]; [by vm_compute|]). lia.
Qed.

Lemma quot_pos_inv m E : 0 < E → 0 < m `quot` E → 0 < m.
Proof.
  intros HE Hq. destruct (decide (0 < m)); [done|].
  replace m with (- - m) in Hq by lia.
  rewrite Z.quot_opp_l in Hq by lia.
  pose proof (Z.quot_pos (- m) E). lia.
Qed.

Lemma radix_loop_rounds (maxKey : Z) (d : nat) : ∀ (k f1 f2 : nat) arr,
  (k + d = 12)%nat → (13 - k ≤ f1)%nat → (13 - k ≤ f2)%nat →
  ((0 < k)%nat → 0 < maxKey) →
  radix_loop f1 maxKey (exp_at k) arr = radix_loop f2 maxKey (exp_at k) arr.
Proof.
  induction d as [|d IH]; intros k f1 f2 arr Hk Hf1 Hf2 Hmax.
  all: destruct f1 as [|f1]; [lia|]; destruct f2 as [|f2]; [lia|].
  all: rewrite !radix_loop_S.
  - assert (k = 12%nat) as -> by lia.
    change (exp_at 12) with (-727379968).
    change (-727379968 =? 0) with false. cbv iota.
    destruct (Z.gtb_spec (maxKey `quot` (-727379968)) 0) as [Hpos|]; [|done].
    change (-727379968) with (- (727379968)) in Hpos.
    rewrite Z.quot_opp_r in Hpos by lia.
    pose proof (Z.quot_pos maxKey 727379968). lia.
  - pose proof (exp_at_pos k ltac:(lia)) as Hexp.
    rewrite (proj2 (Z.eqb_neq _ 0)) by lia.
    destruct (Z.gtb_spec (maxKey `quot` exp_at k) 0) as [Hgo|]; [|done].
    destruct (radix_pass (exp_at k) arr) as [arr'|]; [|done].
    rewrite !bind_Some. apply (IH (S k)); [lia..|].
    intros _. by apply (quot_pos_inv maxKey (exp_at k)).
Qed.

(** Whatever the input, no more than [radix_fuel] rounds are run: more
    fuel changes nothing. *)
Lemma radix_loop_fuel fuel maxKey arr :
  (radix_fuel ≤ fuel)%nat →
  radix_loop fuel maxKey 1 arr = radix_loop radix_fuel maxKey 1 arr.
Proof.
  intros Hfuel. apply (radix_loop_rounds maxKey 12 0);
    [done|unfold radix_fuel in *; lia|unfold radix_fuel; lia|lia].
Qed.

(** ** Inputs and rearrangements *)




(** ** [radixSortLSD] where nothing overflows *)

Lemma digits_fit_span arr : digits_fit arr → span_fits arr.
Proof.
  intros H a b Ha Hb. destruct (H a b Ha Hb). unfold INT_MAX. lia.
Qed.


(** With a maximum below [10^9], a visit of the loop head with
    [exp = 10^9] is the last one. *)
Lemma radix_loop_short maxKey (j : nat) : ∀ (k : nat) l,
  maxKey < 1000000000 → (k + j = 9)%nat →
  radix_loop (j + 1) maxKey (10 ^ Z.of_nat k) l
  = radix_loop (j + 4) maxKey (10 ^ Z.of_nat k) l.
Proof.
  induction j as [|j IH]; intros k l Hmax Hk.
  - assert (k = 9%nat) as -> by lia. simpl Nat.add. rewrite !radix_loop_S.
    change (10 ^ Z.of_nat 9) with 1000000000.
    change (1000000000 =? 0) with false. cbv iota.
    destruct (Z.gtb_spec (maxKey `quot` 1000000000) 0) as [Hgo|]; [|done].
    pose proof (quot_pos_inv maxKey 1000000000 ltac:(lia) Hgo) as Hpos.
    rewrite Z.quot_small in Hgo by lia. lia.
  - assert (0 < 10 ^ Z.of_nat k) as Hpos by (apply Z.pow_pos_nonneg; lia).
    assert (10 ^ Z.of_nat k ≤ 10 ^ 8) as Hle by (apply Z.pow_le_mono_r; lia).
    change (10 ^ 8) with 100000000 in Hle.
    change (S j + 1)%nat with (S (j + 1)). change (S j + 4)%nat with (S (j + 4)).
    rewrite !radix_loop_S. rewrite (proj2 (Z.eqb_neq _ 0)) by lia.
    destruct (maxKey `quot` 10 ^ Z.of_nat k >? 0); [|done].
    destruct (radix_pass (10 ^ Z.of_nat k) l) as [l'|]; [|done].
    rewrite !bind_Some.
    rewrite wrap_in_range by (unfold in_range, INT_MIN, INT_MAX; lia).
    replace (10 ^ Z.of_nat k * 10) with (10 ^ Z.of_nat (S k))
      by (rewrite Nat2Z.inj_succ, Z.pow_succ_r by lia; lia).
    apply IH; [done|lia].
Qed.

(** So ten visits of the loop head are as good as any number: [exp] is
    [10^9] at most, and the product [exp * 10] that would overflow is
    not formed. *)
Lemma radix_loop_below_overflow maxKey arr :
  maxKey < 1000000000 →
  radix_loop 10 maxKey 1 arr = radix_loop radix_fuel maxKey 1 arr.
Proof. intros Hmax. by apply (radix_loop_short maxKey 9 0 arr). Qed.

(** The shifted maximum under [digits_fit]. *)
Lemma digits_fit_shifted_max arr mn mx :
  arr ≠ [] → digits_fit arr → getMinMax arr 0 0 = (mn, mx) →
  mx - (if mn <? 0 then mn else 0) < 1000000000.
Proof.
  intros Hne Hdig Hmm.
  destruct (getMinMax_spec _ _ _ _ _ Hne Hmm)
    as (_ & (rn & Hrn & <-) & (rx & Hrx & <-)).
  destruct (Hdig rx rn Hrx Hrn). destruct (key rn <? 0); lia.
Qed.

(** [radixSortLSD] on the inputs on which none of its operations
    overflows. *)
Lemma radixSortLSD_defined arr :
  int_keys arr → negatable arr → digits_fit arr →
  radixSortLSD arr = Some (stable_sort arr).
Proof.
  intros Hint Hneg Hdig.
  apply radixSortLSD_correct; [done|by apply digits_fit_span|done].
Qed.

(** * Part IV: the properties of the specification *)

Lemma keys_nondecreasing_keys l1 l2 :
  key <$> l1 = key <$> l2 → keys_nondecreasing l2 → keys_nondecreasing l1.
Proof.
  intros Hk Hl i a b Ha Hb.
  assert ((key <$> l2) !! i = Some (key a)) as Ha'
    by (by rewrite <-Hk, list_lookup_fmap, Ha).
  assert ((key <$> l2) !! S i = Some (key b)) as Hb'
    by (by rewrite <-Hk, list_lookup_fmap, Hb).
  rewrite list_lookup_fmap in Ha', Hb'.
  destruct (l2 !! i) as [a'|] eqn:Ea; [|done].
  destruct (l2 !! S i) as [b'|] eqn:Eb; [|done].
  simpl in *. injection Ha' as <-. injection Hb' as <-. by eapply Hl.
Qed.

(** ** Multiset preservation *)




(** ** Ascending order *)




(** ** Stability *)




(** ** The positional invariant of the unstable sort *)



(** ** The verifier *)

Lemma adjacent_short P x : adjacent P [x].
Proof. intros i a b Ha Hb. by destruct i. Qed.

Lemma adjacent_cons P x y l :
  adjacent P (x :: y :: l) ↔ P x y ∧ adjacent P (y :: l).
Proof.
  split.
  - intros H. split; [by apply (H 0%nat)|].
    intros i a b Ha Hb. by apply (H (S i)).
  - intros [Hxy H] [|i] a b Ha Hb; simpl in *.
    + injection Ha as <-. by injection Hb as <-.
    + by apply (H i).
Qed.

Lemma verify_step_true flag prev cur :
  verify_step flag prev cur = true
  ↔ key prev ≤ key cur
    ∧ (flag = true → key prev = key cur → id prev ≤ id cur).
Proof.
  unfold verify_step.
  destruct (Z.ltb_spec (key cur) (key prev)); [split; [done|lia]|].
  destruct flag; simpl; [|split; [done|intros _; done]].
  destruct (Z.eqb_spec (key cur) (key prev)); simpl;
    [|split; [intros _; split; [done|congruence]|done]].
  destruct (Z.ltb_spec (id cur) (id prev)); split.
  - done.
  - intros [_ H']. specialize (H' eq_refl ltac:(done)). lia.
  - intros _. split; [done|]. intros _ _. lia.
  - done.
Qed.

Lemma verify_from_true flag : ∀ prev rest,
  verify_from flag prev rest = true
  ↔ adjacent (λ a b, key a ≤ key b) (prev :: rest)
    ∧ (flag = true →
       adjacent (λ a b, key a = key b → id a ≤ id b) (prev :: rest)).
Proof.
  intros prev rest. revert prev.
  induction rest as [|cur rest IH]; intros prev; simpl.
  - split; [|done]. intros _. split; [|intros _]; apply adjacent_short.
  - rewrite andb_true_iff, verify_step_true, IH, !adjacent_cons. tauto.
Qed.

(** C5, as amended.  [verify] returns true if and only if the keys are
    non-decreasing throughout and, when the flag is set, within every
    run of equal keys the [id]s are non-decreasing. *)
Theorem verify_iff (arr : list record) (checkStability : bool) :
  verify arr checkStability = true
  ↔ keys_nondecreasing arr
    ∧ (checkStability = true → ids_nondecreasing_in_runs arr).
Proof.
  destruct arr as [|r0 rest]; simpl.
  - split; [|done]. intros _. split; [|intros _]; by intros [|?] ???.
  - apply verify_from_true.
Qed.

(** C5 as stated fails: two records with one key and one [id] pass the
    stability check, and their [id]s do not strictly increase. *)
Lemma verify_counterexample :
  verify [mkRecord 1 0; mkRecord 1 0] true = true
  ∧ keys_nondecreasing [mkRecord 1 0; mkRecord 1 0]
  ∧ ¬ ids_increasing_in_runs [mkRecord 1 0; mkRecord 1 0].
Proof.
  split_and!; [done| |].
  - apply sorted_by_key_nondecreasing. repeat constructor; simpl; lia.
  - intros H. specialize (H 0%nat _ _ eq_refl eq_refl eq_refl).
    simpl in H. lia.
Qed.

(** ** Negative keys *)






(** ** Boundaries *)

(** C7.  On the empty sequence each of the five sorts returns the empty
    sequence, and [verify] returns true whatever the stability flag. *)
Theorem empty_input :
  countingSortStable [] = Some []
  ∧ countingSortUnstable [] = Some []
  ∧ radixSortLSD [] = Some []
  ∧ bucketSort [] = Some []
  ∧ pigeonholeSort [] = Some []
  ∧ ∀ checkStability, verify [] checkStability = true.
Proof. split_and!; reflexivity. Qed.

(** ** All keys equal *)

Lemma all_keys_equal_sorted arr : all_keys_equal arr → stable_sort arr = arr.
Proof.
  intros Heq. apply stable_sort_of_sorted.
  destruct arr as [|r0 l]; [constructor|].
  apply sorted_by_const with (key r0), Forall_forall.
  intros r Hr. apply Heq; [done|left].
Qed.

Lemma all_keys_equal_span arr : all_keys_equal arr → span_fits arr.
Proof.
  intros Heq a b Ha Hb. rewrite (Heq a b Ha Hb). unfold INT_MAX. lia.
Qed.

(** With one key throughout, the three sorts that do not shift the keys
    return the input as it is, and so does [radixSortLSD] when the key
    is not [INT_MIN] and is below [10^9]. *)
Lemma all_keys_equal_unchanged arr :
  int_keys arr → all_keys_equal arr →
  countingSortStable arr = Some arr
  ∧ (negatable arr → digits_fit arr → radixSortLSD arr = Some arr)
  ∧ bucketSort arr = Some arr
  ∧ pigeonholeSort arr = Some arr.
Proof.
  intros Hint Heq. pose proof (all_keys_equal_span arr Heq) as Hspan.
  pose proof (all_keys_equal_sorted arr Heq) as Hs.
  split_and!; [|intros Hneg Hdig|..];
    (transitivity (Some (stable_sort arr)); [|by rewrite Hs]).
  - by apply countingSortStable_correct.
  - by apply radixSortLSD_defined.
  - by apply bucketSort_correct, span_fits_diff.
  - by apply pigeonholeSort_correct.
Qed.

(** C8, at the input where the code departs from it: two records with
    the key [INT_MIN].  [-minVal] wraps to [INT_MIN], every key becomes
    [0], no pass is run as [maxKey] is [0], and since [shift > 0] does
    not hold the keys are not restored. *)
Theorem all_keys_equal_radix_INT_MIN :
  all_keys_equal [mkRecord INT_MIN 0; mkRecord INT_MIN 1]
  ∧ radixSortLSD [mkRecord INT_MIN 0; mkRecord INT_MIN 1]
    = Some [mkRecord 0 0; mkRecord 0 1].
Proof.
  split; [|vm_compute; reflexivity].
  assert (Forall (λ r, key r = INT_MIN)
            [mkRecord INT_MIN 0; mkRecord INT_MIN 1]) as Hall
    by (repeat constructor).
  rewrite Forall_forall in Hall.
  intros a b Ha Hb. by rewrite (Hall a Ha), (Hall b Hb).
Qed.

(** ** Idempotence *)




(** ** The bucket index *)

(** Where C10 holds.  In [bucketSort], for every non-empty input of
    [int] keys whose differences [maxKey - minKey] are representable as
    an [int], so that [arr[i].key - minVal] does not overflow, the
    bucket index of every record, clamp included, lies in
    [0, bucketCount - 1], and the scatter loop runs through without an
    access out of bounds. *)
Theorem bucket_index_in_bounds (arr : list record) (mn mx : Z) :
  arr ≠ [] → int_keys arr → diff_fits arr →
  getMinMax arr 0 0 = (mn, mx) →
  let n := Z.of_nat (length arr) in
  let range := mx - mn + 1 in
  (∀ r, r ∈ arr → 0 ≤ bucket_index mn n range r ≤ n - 1)
  ∧ ∃ buckets,
      foldM (λ buckets r, push_at buckets (bucket_index mn n range r) r)
            arr (replicate (Z.to_nat n) []) = Some buckets.
Proof.
  intros Hne Hint Hdiff Hmm n range.
  pose proof (bucket_index_range arr mn mx Hne Hint Hdiff Hmm) as Hall.
  split.
  - rewrite Forall_forall in Hall. intros r Hr. specialize (Hall r Hr).
    simpl in Hall. subst n range. lia.
  - eexists. apply (scatter_classes (bucket_index mn n range) n); [|done].
    subst n. rewrite Nat2Z.id. split; [by rewrite length_replicate|].
    intros j Hj. rewrite vec_get_lookup by lia.
    apply lookup_replicate_2. lia.
Qed.

Lemma bucket_index_in_bounds_witness :
  (sample ≠ [] ∧ int_keys sample ∧ diff_fits sample
   ∧ getMinMax sample 0 0 = (-7, 3))
  ∧ (∀ r, r ∈ sample → 0 ≤ bucket_index (-7) 5 (3 - -7 + 1) r ≤ 5 - 1)
  ∧ ∃ buckets,
      foldM (λ buckets r, push_at buckets (bucket_index (-7) 5 (3 - -7 + 1) r) r)
            sample (replicate (Z.to_nat 5) []) = Some buckets.
Proof.
  assert (diff_fits sample) as Hdiff by (apply span_fits_diff; by_evaluation).
  split; [split_and!; [done|by_evaluation|exact Hdiff|vm_compute; reflexivity]|].
  apply (bucket_index_in_bounds sample (-7) 3);
    [done|by_evaluation|exact Hdiff|vm_compute; reflexivity].
Defined.

(** C10, at an input where the code departs from it: the keys
    [INT_MIN] and [0].  The line before computes [range] with the cast
    to [long long] first; here the cast comes after the subtraction,
    so for the second record [arr[i].key - minVal] is formed in [int],
    overflows and wraps to [INT_MIN]; times [bucketCount = 2] and
    divided by [range = 2^31 + 1], that is [-1], which the clamp from
    above leaves, and [buckets[-1]] is outside of the vector. *)
Theorem bucket_index_below_zero :
  int_keys [mkRecord INT_MIN 0; mkRecord 0 1]
  ∧ getMinMax [mkRecord INT_MIN 0; mkRecord 0 1] 0 0 = (INT_MIN, 0)
  ∧ bucket_index INT_MIN 2 (0 - INT_MIN + 1) (mkRecord 0 1) = -1
  ∧ bucketSort [mkRecord INT_MIN 0; mkRecord 0 1] = None.
Proof. split_and!; [by_evaluation|vm_compute; reflexivity..]. Qed.

(** * Part V: further properties of the code *)

(** ** [getMinMax] *)

(** X1.  On a vector that is not empty [getMinMax] assigns both
    reference parameters, whatever they held: the least and the
    greatest key of the vector, each the key of one of its records. *)
Theorem getMinMax_least_greatest (arr : list record) (a b : Z) :
  arr ≠ [] →
  (∃ r, r ∈ arr ∧ key r = (getMinMax arr a b).1)
  ∧ (∃ r, r ∈ arr ∧ key r = (getMinMax arr a b).2)
  ∧ (∀ r, r ∈ arr → (getMinMax arr a b).1 ≤ key r ≤ (getMinMax arr a b).2)
  ∧ getMinMax arr a b = getMinMax arr 0 0.
Proof.
  intros Hne. destruct (getMinMax arr a b) as [mn mx] eqn:Hmm.
  destruct (getMinMax_spec _ _ _ _ _ Hne Hmm) as (Hall & Hmn & Hmx).
  split_and!; [done..|]. rewrite <-Hmm. by destruct arr.
Qed.

Lemma getMinMax_least_greatest_witness :
  (∃ r, r ∈ sample ∧ key r = -7) ∧ (∃ r, r ∈ sample ∧ key r = 3).
Proof.
  pose proof (getMinMax_least_greatest sample 100 (-100)) as H.
  destruct H as (Hmn & Hmx & _); [done|]. split; [exact Hmn|exact Hmx].
Defined.

(** ** The number of records *)










(** ** The stable sorts against one another *)



(** ** The two counting sorts *)








(** ** A key span that does not fit *)

Lemma range_overflow mn mx :
  in_range mn → in_range mx → INT_MAX ≤ mx - mn →
  wrap (wrap (mx - mn) + 1) ≤ 0.
Proof.
  unfold in_range, INT_MIN, INT_MAX. intros Hmn Hmx Hd.
  replace (wrap (mx - mn) + 1) with (1 + wrap (mx - mn)) by lia.
  rewrite wrap_add_r. unfold wrap.
  replace (1 + (mx - mn) + 2147483648)
    with (1 + (mx - mn) - 2147483648 + 1 * 4294967296) by lia.
  rewrite Z.mod_add by lia. rewrite Z.mod_small by lia. lia.
Qed.

Lemma range_indexed_None arr mn mx :
  arr ≠ [] → int_keys arr → getMinMax arr 0 0 = (mn, mx) →
  INT_MAX ≤ mx - mn →
  countingSortStable arr = None
  ∧ countingSortUnstable arr = None
  ∧ pigeonholeSort arr = None.
Proof.
  intros Hne Hint Hmm Hd.
  destruct (bounds_facts arr mn mx Hne Hint Hmm) as (Hmn & Hmx & _).
  pose proof (range_overflow mn mx Hmn Hmx Hd) as Hrange.
  unfold countingSortStable, countingSortUnstable, pigeonholeSort.
  rewrite !past_guard by done. rewrite Hmm.
  destruct arr as [|r0 arr]; [done|].
  destruct (decide (wrap (wrap (mx - mn) + 1) = 0)) as [->|Hnz].
  - split_and!; simpl; unfold incr, push_at, vec_get;
      by destruct (0 <=? _).
  - unfold vec_new.
    rewrite (proj2 (Z.leb_gt _ _)) by lia. done.
Qed.

(** X6.  When [maxKey - minKey + 1] is not representable as an [int]
    the three sorts that allocate one cell per key value have no
    result: [range] wraps to a negative size, or to [0] and then the
    first [count[..]++] or [push_back] is out of bounds. *)
Theorem range_indexed_overflow (arr : list record) (mn mx : Z) :
  arr ≠ [] → int_keys arr → getMinMax arr 0 0 = (mn, mx) →
  INT_MAX ≤ mx - mn →
  countingSortStable arr = None
  ∧ countingSortUnstable arr = None
  ∧ pigeonholeSort arr = None.
Proof. apply range_indexed_None. Qed.

Lemma range_indexed_overflow_witness :
  countingSortStable extremes = None
  ∧ countingSortUnstable extremes = None
  ∧ pigeonholeSort extremes = None.
Proof.
  apply (range_indexed_overflow extremes INT_MIN INT_MAX);
    [done|by_evaluation|reflexivity|vm_compute; discriminate].
Defined.

(** ** [radixSortLSD] *)




(** The loop is left at its first test when [maxKey] is not positive. *)
Lemma radix_loop_no_round fuel maxKey l :
  maxKey ≤ 0 → radix_loop (S fuel) maxKey 1 l = Some l.
Proof.
  intros Hm. rewrite radix_loop_S. change (1 =? 0) with false. cbv iota.
  rewrite Z.quot_1_r. by destruct (Z.gtb_spec maxKey 0); [lia|].
Qed.




Lemma wrap_wrap_add x y : wrap (wrap x + y) = wrap (x + y).
Proof. rewrite (Z.add_comm (wrap x)), wrap_add_r. f_equal. lia. Qed.

Lemma wrap_high z :
  INT_MAX < z ≤ 4294967295 → wrap z = z - 4294967296.
Proof.
  unfold INT_MAX, wrap. intros Hz.
  replace (z + 2147483648) with (z - 2147483648 + 1 * 4294967296) by lia.
  rewrite Z.mod_add by lia. rewrite Z.mod_small by lia. lia.
Qed.

Lemma shifted_max_wrap mn mx : wrap (mx + wrap (- mn)) = wrap (mx - mn).
Proof. by rewrite wrap_add_r. Qed.

(** X9.  When the least key is negative, is not [INT_MIN], and lies
    more than [INT_MAX] below the greatest, [radixSortLSD] returns its
    input as it was given: the shifted maximum wraps to a negative
    number, no round is run, and taking the shift back restores every
    key.  No error is raised and nothing is sorted. *)
Theorem radixSortLSD_overflow_unchanged (arr : list record) (mn mx : Z) :
  arr ≠ [] → int_keys arr → getMinMax arr 0 0 = (mn, mx) →
  INT_MIN < mn → INT_MAX < mx - mn →
  radixSortLSD arr = Some arr.
Proof.
  intros Hne Hint Hmm Hmin Hd.
  destruct (bounds_facts arr mn mx Hne Hint Hmm) as (Hmn & Hmx & Hle & Hall & _).
  unfold in_range, INT_MIN, INT_MAX in *.
  unfold radixSortLSD. rewrite past_guard by done. rewrite Hmm.
  rewrite (proj2 (Z.ltb_lt mn 0)) by lia.
  rewrite shifted_max_wrap.
  rewrite (wrap_high (mx - mn)) by (unfold INT_MAX; lia).
  change radix_fuel with (S 12). rewrite radix_loop_no_round by lia.
  rewrite bind_Some.
  assert (wrap (- mn) = - mn) as ->
    by (apply wrap_in_range; unfold in_range, INT_MIN, INT_MAX; lia).
  rewrite (proj2 (Z.gtb_lt _ _)) by lia. f_equal.
  rewrite <-list_fmap_compose. rewrite <-(list_fmap_id arr) at 2.
  apply list_fmap_ext. intros i [k j] Hr. unfold add_key. simpl. f_equal.
  unfold int_keys in Hint. rewrite Forall_forall in Hint.
  apply list_elem_of_lookup_2, Hint in Hr. simpl in Hr.
  rewrite wrap_wrap_add. replace (k + - mn + - - mn) with k by lia.
  by apply wrap_in_range.
Qed.

Lemma radixSortLSD_overflow_unchanged_witness :
  radixSortLSD [mkRecord INT_MAX 0; mkRecord (-1) 1; mkRecord 5 2]
  = Some [mkRecord INT_MAX 0; mkRecord (-1) 1; mkRecord 5 2].
Proof.
  apply (radixSortLSD_overflow_unchanged _ (-1) INT_MAX);
    [done|by_evaluation|reflexivity|unfold INT_MIN; lia|unfold INT_MAX; lia].
Defined.

(** ** The scatter loop of [bucketSort] *)

(** X11.  In [bucketSort], on [int] keys whose differences fit an
    [int], the quotient computed for a record is below [bucketCount]
    as it stands, so the clamp [if (idx >= bucketCount)] is never
    taken; the index grows with the key, and a record with the least
    key goes to bucket [0]. *)
Theorem bucket_index_unclamped (arr : list record) (mn mx : Z) :
  arr ≠ [] → int_keys arr → diff_fits arr →
  getMinMax arr 0 0 = (mn, mx) →
  let n := Z.of_nat (length arr) in
  let range := mx - mn + 1 in
  (∀ r, r ∈ arr → (wrap (key r - mn) * n) `quot` range < n)
  ∧ (∀ a b, a ∈ arr → b ∈ arr → key a ≤ key b →
       bucket_index mn n range a ≤ bucket_index mn n range b)
  ∧ (∀ r, r ∈ arr → key r = mn → bucket_index mn n range r = 0).
Proof.
  intros Hne Hint Hdiff Hmm n range.
  assert (0 < n) as Hn by (subst n; destruct arr; [done|simpl length; lia]).
  destruct (getMinMax_spec _ _ _ _ _ Hne Hmm) as (Hall & (rn & Hrn & Hkn) & _).
  split_and!.
  - intros r Hr. specialize (Hall r Hr).
    pose proof (Hdiff r rn Hr Hrn) as Hd. rewrite Hkn in Hd.
    rewrite wrap_in_range by (unfold in_range, INT_MIN, INT_MAX in *; lia).
    rewrite Z.quot_div_nonneg by (subst range; nia).
    apply Z.div_lt_upper_bound; subst range; [lia|nia].
  - intros a b Ha Hb Hab. by apply (bucket_index_mono arr mn mx).
  - intros r Hr Hk. rewrite (bucket_index_exact arr mn mx) by done.
    rewrite Hk, Z.sub_diag, Z.mul_0_l. apply Z.div_0_l. subst range.
    specialize (Hall r Hr). lia.
Qed.

Lemma bucket_index_unclamped_witness :
  (∀ r, r ∈ sample → (wrap (key r - -7) * 5) `quot` (3 - -7 + 1) < 5)
  ∧ (∀ a b, a ∈ sample → b ∈ sample → key a ≤ key b →
       bucket_index (-7) 5 (3 - -7 + 1) a ≤ bucket_index (-7) 5 (3 - -7 + 1) b)
  ∧ (∀ r, r ∈ sample → key r = -7 →
       bucket_index (-7) 5 (3 - -7 + 1) r = 0).
Proof.
  apply (bucket_index_unclamped sample (-7) 3); [done|by_evaluation| |done].
  apply span_fits_diff. by_evaluation.
Defined.

(** ** The verifier after a sort *)

Lemma verify_true flag l :
  verify l flag = true
  ↔ adjacent (λ a b, key a ≤ key b) l
    ∧ (flag = true → adjacent (λ a b, key a = key b → id a ≤ id b) l).
Proof.
  destruct l as [|r0 l]; [|apply verify_from_true].
  simpl. split; [|done]. intros _. split; [|intros _]; by intros [|?] ???.
Qed.

Lemma StronglySorted_adjacent (R : record → record → Prop) l :
  StronglySorted R l → adjacent R l.
Proof.
  induction 1 as [|x l Hl IH Hx]; [by intros [|?] ???|].
  intros [|i] a b Ha Hb; simpl in *.
  - injection Ha as <-. rewrite Forall_forall in Hx. apply Hx.
    by eapply list_elem_of_lookup_2.
  - by eapply IH.
Qed.

Lemma sorted_by_adjacent (g : record → Z) l :
  sorted_by g l → adjacent (λ a b, g a ≤ g b) l.
Proof. apply StronglySorted_adjacent. Qed.

(** In a sequence ordered by key, the neighbours of equal keys have
    ordered [id]s exactly when every key has its [id]s in order. *)
Lemma runs_in_order l :
  sorted_by key l →
  adjacent (λ a b, key a = key b → id a ≤ id b) l ↔ ids_in_order l.
Proof.
  unfold ids_in_order, with_key.
  induction l as [|x l IH]; intros Hs.
  { split; [intros _ k; constructor|by intros _ [|?] ???]. }
  apply sorted_by_cons in Hs as [Hx Hl]. rewrite Forall_forall in Hx.
  specialize (IH Hl). split.
  - intros Hadj k. rewrite filter_cons.
    assert (adjacent (λ a b, key a = key b → id a ≤ id b) l) as Hadj'
      by (intros i a b Ha Hb; by apply (Hadj (S i))).
    pose proof (proj1 IH Hadj' k) as Hk.
    destruct (decide (key x = k)) as [<-|]; [|done].
    apply sorted_by_cons. split; [|done].
    destruct l as [|y l']; [constructor|].
    destruct (decide (key y = key x)) as [Hy|Hy].
    + assert (id x ≤ id y) as Hxy by (by apply (Hadj 0%nat x y)).
      rewrite filter_cons_True in Hk |- * by done.
      apply sorted_by_cons in Hk as [Hk _].
      apply Forall_cons. split; [done|].
      eapply Forall_impl; [exact Hk|]. simpl. lia.
    + rewrite filter_none; [constructor|].
      apply sorted_by_cons in Hl as [Hl' _]. rewrite Forall_forall in Hl'.
      apply Forall_forall. intros r Hr Hkr.
      assert (key x ≤ key y) by (apply Hx; left).
      assert (key y ≤ key r)
        by (apply elem_of_cons in Hr as [->|Hr]; [done|by apply Hl']).
      lia.
  - intros Hk. destruct l as [|y l']; [apply adjacent_short|].
    apply adjacent_cons. split.
    + intros Hxy. specialize (Hk (key x)).
      rewrite filter_cons_True in Hk by done.
      rewrite filter_cons_True in Hk by done.
      apply sorted_by_cons in Hk as [Hk _].
      by apply Forall_cons in Hk as [? _].
    + apply IH. intros k. specialize (Hk k). rewrite filter_cons in Hk.
      destruct (decide (key x = k)); [|done].
      by apply sorted_by_cons in Hk as [_ ?].
Qed.

Lemma verify_sorted_runs l :
  sorted_by key l → (verify l true = true ↔ ids_in_order l).
Proof.
  intros Hl. rewrite verify_true, <-runs_in_order by done.
  pose proof (sorted_by_adjacent key l Hl). tauto.
Qed.

Lemma ids_in_order_stable arr out :
  stable_wrt arr out → ids_in_order out ↔ ids_in_order arr.
Proof.
  intros Hst. unfold ids_in_order.
  split; intros H k; [rewrite <-Hst|rewrite Hst]; apply H.
Qed.

Lemma verify_stable_sort arr :
  verify (stable_sort arr) false = true
  ∧ (verify (stable_sort arr) true = true ↔ ids_in_order arr).
Proof.
  split.
  - apply verify_true. split; [|done].
    apply sorted_by_adjacent, stable_sort_sorted.
  - rewrite verify_sorted_runs by apply stable_sort_sorted.
    apply ids_in_order_stable, stable_sort_stable.
Qed.



Lemma adjacent_ids_transfer (R : Z → Z → Prop) (l1 l2 : list record) :
  id <$> l1 = id <$> l2 →
  adjacent (λ a b, R (id a) (id b)) l2 → adjacent (λ a b, R (id a) (id b)) l1.
Proof.
  intros Hi Hl i a b Ha Hb.
  assert ((id <$> l2) !! i = Some (id a)) as Ha'
    by (by rewrite <-Hi, list_lookup_fmap, Ha).
  assert ((id <$> l2) !! S i = Some (id b)) as Hb'
    by (by rewrite <-Hi, list_lookup_fmap, Hb).
  rewrite list_lookup_fmap in Ha', Hb'.
  destruct (l2 !! i) as [a'|] eqn:Ea; [|done].
  destruct (l2 !! S i) as [b'|] eqn:Eb; [|done].
  simpl in *. injection Ha' as <-. injection Hb' as <-. by eapply Hl.
Qed.

Lemma verify_countingSortUnstable arr :
  int_keys arr → span_fits arr → sorted_by id arr →
  returns countingSortUnstable arr (λ out, verify out true = true).
Proof.
  intros Hint Hspan Hids.
  destruct (countingSortUnstable_correct arr Hint Hspan) as (u & Hu & Hk & Hi).
  exists u. split; [done|]. apply verify_true. split.
  - apply (keys_nondecreasing_keys u (stable_sort arr)); [done|].
    apply sorted_by_key_nondecreasing, stable_sort_sorted.
  - intros _ i a b Ha Hb _.
    apply (adjacent_ids_transfer Z.le u arr Hi
             (sorted_by_adjacent id arr Hids) i); done.
Qed.



(** X14.  The stability check only adds a test: a sequence that
    [verify] accepts with the check on is accepted with the check
    off. *)
Theorem verify_flag_monotone (arr : list record) :
  verify arr true = true → verify arr false = true.
Proof.
  rewrite !verify_true. intros [Hkeys _]. by split.
Qed.

Lemma verify_flag_monotone_witness :
  verify [mkRecord 1 3; mkRecord 3 1; mkRecord 5 0; mkRecord 5 2] false = true.
Proof.
  apply (verify_flag_monotone [mkRecord 1 3; mkRecord 3 1;
                               mkRecord 5 0; mkRecord 5 2]).
  reflexivity.
Defined.




(** ** The generator *)

(** The loop [for (i = 0; i < n; i++) data[i] = g(i)] on a fresh vector
    of [n] records. *)
Lemma generate_loop (g : Z → record) (n : nat) : ∀ m : nat,
  (m ≤ n)%nat →
  foldM (λ data i, vec_set data i (g i)) (seqZ 0 (Z.of_nat m))
        (replicate n zero_record)
  = Some ((g <$> seqZ 0 (Z.of_nat m)) ++ replicate (n - m) zero_record).
Proof.
  induction m as [|m IH]; intros Hm.
  - simpl. by rewrite Nat.sub_0_r.
  - rewrite seqZ_S, foldM_snoc, IH by lia. rewrite bind_Some, Z.add_0_l.
    unfold vec_set. rewrite length_app, length_fmap, length_seqZ, length_replicate.
    rewrite (proj2 (andb_true_iff _ _)) by (split; [apply Z.leb_le|apply Z.ltb_lt]; lia).
    f_equal. rewrite Nat2Z.id.
    rewrite insert_app_r_alt by (rewrite length_fmap, length_seqZ; lia).
    rewrite length_fmap, length_seqZ, Nat2Z.id, Nat.sub_diag.
    replace (n - m)%nat with (S (n - S m)) by lia.
    rewrite fmap_app, <-app_assoc. done.
Qed.

Lemma generate_Some (g : Z → record) (n : Z) :
  0 ≤ n →
  (data ← vec_new n zero_record;
   foldM (λ data i, vec_set data i (g i)) (seqZ 0 n) data)
  = Some (g <$> seqZ 0 n).
Proof.
  intros Hn. unfold vec_new. rewrite (proj2 (Z.leb_le 0 n)) by done.
  rewrite bind_Some.
  pose proof (generate_loop g (Z.to_nat n) (Z.to_nat n) (le_n _)) as Hrun.
  rewrite Z2Nat.id, Nat.sub_diag, app_nil_r in Hrun by done. exact Hrun.
Qed.

Lemma generated_length (g : Z → record) n :
  0 ≤ n → Z.of_nat (length (g <$> seqZ 0 n)) = n.
Proof. intros Hn. rewrite length_fmap, length_seqZ. lia. Qed.

Lemma generated_ids (g : Z → record) n :
  (∀ i, id (g i) = i) → 0 ≤ n → ids_positional (g <$> seqZ 0 n).
Proof.
  intros Hg Hn. unfold ids_positional. rewrite generated_length by done.
  rewrite <-list_fmap_compose. rewrite <-(list_fmap_id (seqZ 0 n)) at 2.
  apply list_fmap_ext. intros ???. apply Hg.
Qed.

Lemma StronglySorted_fmap_seqZ {B : Type} (R : B → B → Prop) (g : Z → B) (n : nat) :
  ∀ m, (∀ i j, m ≤ i → i < j → j < m + Z.of_nat n → R (g i) (g j)) →
       StronglySorted R (g <$> seqZ m (Z.of_nat n)).
Proof.
  induction n as [|n IH]; intros m HR; [constructor|].
  rewrite seqZ_cons by lia. rewrite fmap_cons.
  replace (Z.pred (Z.of_nat (S n))) with (Z.of_nat n) by lia.
  constructor.
  - apply IH. intros i j ???. apply HR; lia.
  - apply Forall_fmap, Forall_forall. intros j Hj%elem_of_seqZ.
    apply HR; lia.
Qed.

Lemma positional_ids_sorted l : ids_positional l → sorted_by id l.
Proof.
  unfold ids_positional. intros Hl.
  assert (StronglySorted Z.le (id <$> l)) as Hs.
  { rewrite Hl. rewrite <-(list_fmap_id (seqZ _ _)).
    apply (StronglySorted_fmap_seqZ Z.le (λ i, i)). intros. simpl. lia. }
  clear Hl. induction l as [|x l IH]; [constructor|].
  rewrite fmap_cons in Hs. apply StronglySorted_inv in Hs as [Hs Hx].
  apply sorted_by_cons. split; [|by apply IH].
  apply Forall_forall. intros y Hy. rewrite Forall_forall in Hx.
  apply Hx. by apply list_elem_of_fmap_2.
Qed.

Lemma generateData_REVERSE_Some n :
  0 ≤ n ≤ INT_MAX →
  generateData_REVERSE n = Some ((λ i, mkRecord (n - i) i) <$> seqZ 0 n).
Proof.
  intros [Hn Hmax]. unfold generateData_REVERSE. rewrite generate_Some by done.
  f_equal. apply list_fmap_ext. intros k i Hi.
  apply list_elem_of_lookup_2, elem_of_seqZ in Hi. f_equal.
  apply wrap_in_range. unfold in_range, INT_MIN, INT_MAX in *. lia.
Qed.

Lemma generateData_RANDOM_Some draw n :
  0 ≤ n →
  generateData_RANDOM draw n = Some ((λ i, mkRecord (draw i) i) <$> seqZ 0 n).
Proof. intros Hn. unfold generateData_RANDOM. by rewrite generate_Some. Qed.

(** X16.  [generateData] returns [n] records, the record at position
    [i] with [id] [i]; its key is [n - i] in the REVERSE branch and
    the [i]-th draw in the RANDOM branch.  A negative [n] has no
    result: the allocation of the vector throws. *)
Theorem generateData_records (draw : Z → Z) (n : Z) :
  (0 ≤ n ≤ INT_MAX →
   generateData_REVERSE n = Some ((λ i, mkRecord (n - i) i) <$> seqZ 0 n)
   ∧ generateData_RANDOM draw n
     = Some ((λ i, mkRecord (draw i) i) <$> seqZ 0 n))
  ∧ (n < 0 →
     generateData_REVERSE n = None ∧ generateData_RANDOM draw n = None).
Proof.
  split.
  - intros Hn. split; [by apply generateData_REVERSE_Some|].
    apply generateData_RANDOM_Some. lia.
  - intros Hn. unfold generateData_REVERSE, generateData_RANDOM, vec_new.
    by rewrite (proj2 (Z.leb_gt 0 n)) by done.
Qed.

Lemma generateData_records_witness :
  generateData_REVERSE 3 = Some [mkRecord 3 0; mkRecord 2 1; mkRecord 1 2]
  ∧ generateData_RANDOM (λ i, i `mod` 2) 3
    = Some [mkRecord 0 0; mkRecord 1 1; mkRecord 0 2].
Proof.
  apply (generateData_records (λ i, i `mod` 2) 3). unfold INT_MAX. lia.
Defined.

Lemma insert_by_key_greatest x l :
  Forall (λ y, key y < key x) l → insert_by_key x l = l ++ [x].
Proof.
  induction 1 as [|y l Hy Hl IH]; [done|]. simpl.
  rewrite (proj2 (Z.ltb_lt _ _)) by done. by rewrite IH.
Qed.

Lemma stable_sort_decreasing l :
  StronglySorted (λ a b, key b < key a) l → stable_sort l = rev l.
Proof.
  induction 1 as [|x l Hl IH Hx]; [done|].
  simpl. rewrite IH. apply insert_by_key_greatest.
  rewrite Forall_forall in Hx |- *. intros y Hy. apply Hx.
  apply list_elem_of_In. apply list_elem_of_In, in_rev in Hy. exact Hy.
Qed.

Section reverse_data.
Context (n : Z).
Hypothesis n_int : 0 ≤ n ≤ INT_MAX.

Let data : list record := (λ i, mkRecord (n - i) i) <$> seqZ 0 n.

Lemma reverse_keys r : r ∈ data → 1 ≤ key r ≤ n.
Proof.
  intros (i & -> & Hi%elem_of_seqZ)%list_elem_of_fmap. simpl. lia.
Qed.

Lemma reverse_int_keys : int_keys data.
Proof.
  apply Forall_forall. intros r Hr%reverse_keys.
  unfold in_range, INT_MIN, INT_MAX in *. lia.
Qed.

Lemma reverse_span_fits : span_fits data.
Proof. intros a b Ha%reverse_keys Hb%reverse_keys. lia. Qed.

Lemma reverse_negatable : negatable data.
Proof.
  apply Forall_forall. intros r Hr%reverse_keys. unfold INT_MIN. lia.
Qed.

Lemma reverse_sorted : stable_sort data = rev data.
Proof.
  apply stable_sort_decreasing. subst data.
  rewrite <-(Z2Nat.id n) by lia.
  apply (StronglySorted_fmap_seqZ (λ a b, key b < key a)). intros. simpl. lia.
Qed.

Lemma reverse_ids_in_order : ids_in_order data.
Proof.
  intros k. apply sorted_by_filter, positional_ids_sorted.
  apply (generated_ids (λ i, mkRecord (n - i) i)); [done|lia].
Qed.

End reverse_data.

(** X17.  Each of the four stable sorts turns the data of the REVERSE
    branch round: it returns the generated vector back to front, and
    the verifier accepts that with the stability check on.  For
    [radixSortLSD] this is for [n] below [10^9], where [exp] does not
    overflow. *)
Theorem sort_REVERSE (n : Z) (data : list record) :
  0 ≤ n ≤ INT_MAX → generateData_REVERSE n = Some data →
  countingSortStable data = Some (rev data)
  ∧ (n < 1000000000 → radixSortLSD data = Some (rev data))
  ∧ bucketSort data = Some (rev data)
  ∧ pigeonholeSort data = Some (rev data)
  ∧ verify (rev data) true = true.
Proof.
  intros Hn Hgen.
  rewrite generateData_REVERSE_Some in Hgen by done.
  injection Hgen as <-.
  pose proof (reverse_int_keys n Hn) as Hint.
  pose proof (reverse_span_fits n Hn) as Hspan.
  pose proof (reverse_negatable n) as Hneg.
  rewrite <-(reverse_sorted n Hn). split_and!.
  - by apply countingSortStable_correct.
  - intros Hdig. apply radixSortLSD_defined; [done..|].
    intros a b Ha%reverse_keys Hb%reverse_keys. lia.
  - by apply bucketSort_correct, span_fits_diff.
  - by apply pigeonholeSort_correct.
  - apply verify_stable_sort. by apply reverse_ids_in_order.
Qed.

Lemma sort_REVERSE_witness :
  countingSortStable [mkRecord 3 0; mkRecord 2 1; mkRecord 1 2]
  = Some [mkRecord 1 2; mkRecord 2 1; mkRecord 3 0]
  ∧ radixSortLSD [mkRecord 3 0; mkRecord 2 1; mkRecord 1 2]
    = Some [mkRecord 1 2; mkRecord 2 1; mkRecord 3 0]
  ∧ bucketSort [mkRecord 3 0; mkRecord 2 1; mkRecord 1 2]
    = Some [mkRecord 1 2; mkRecord 2 1; mkRecord 3 0]
  ∧ pigeonholeSort [mkRecord 3 0; mkRecord 2 1; mkRecord 1 2]
    = Some [mkRecord 1 2; mkRecord 2 1; mkRecord 3 0]
  ∧ verify [mkRecord 1 2; mkRecord 2 1; mkRecord 3 0] true = true.
Proof.
  destruct (sort_REVERSE 3 [mkRecord 3 0; mkRecord 2 1; mkRecord 1 2])
    as (H1 & H2 & H3 & H4 & H5); [unfold INT_MAX; lia|reflexivity|].
  split_and!; [exact H1|apply H2; lia|exact H3|exact H4|exact H5].
Defined.

(** ** The sanity check of [main] *)

Section random_data.
Context (draw : Z → Z) (n k : Z).
Hypothesis n_int : 0 ≤ n ≤ INT_MAX.
Hypothesis k_int : 0 ≤ k < INT_MAX.
Hypothesis draws : ∀ i, 0 ≤ i < n → 0 ≤ draw i ≤ k.

Let data : list record := (λ i, mkRecord (draw i) i) <$> seqZ 0 n.

Lemma random_keys r : r ∈ data → 0 ≤ key r ≤ k.
Proof.
  intros (i & -> & Hi%elem_of_seqZ)%list_elem_of_fmap. simpl.
  apply draws. lia.
Qed.

Lemma random_int_keys : int_keys data.
Proof.
  apply Forall_forall. intros r Hr%random_keys.
  unfold in_range, INT_MIN, INT_MAX in *. lia.
Qed.

Lemma random_span_fits : span_fits data.
Proof. intros a b Ha%random_keys Hb%random_keys. lia. Qed.

Lemma random_negatable : negatable data.
Proof.
  apply Forall_forall. intros r Hr%random_keys. unfold INT_MIN. lia.
Qed.

Lemma random_ids_sorted : sorted_by id data.
Proof.
  apply positional_ids_sorted.
  apply (generated_ids (λ i, mkRecord (draw i) i)); [done|lia].
Qed.

Lemma check_of_stable_sort sortFunc :
  sortFunc data = Some (stable_sort data) →
  runSingleCheck sortFunc draw n = Some true.
Proof.
  intros Hsort. unfold runSingleCheck.
  rewrite generateData_RANDOM_Some by lia. rewrite bind_Some.
  fold data. rewrite Hsort, bind_Some. f_equal.
  apply verify_stable_sort. intros j.
  apply sorted_by_filter, random_ids_sorted.
Qed.

End random_data.

(** X18.  [runSingleCheck] reports "Stable: YES" for each of the four
    stable sorts, whatever the engine draws: with [n] records and keys
    drawn from [0 .. k], [k] below [INT_MAX], the sort has a result
    and [verify] accepts it with the stability check on.  For
    [radixSortLSD] this is for [k] below [10^9], where [exp] does not
    overflow. *)
Theorem runSingleCheck_stable (draw : Z → Z) (n k : Z) :
  0 ≤ n ≤ INT_MAX → 0 ≤ k < INT_MAX →
  (∀ i, 0 ≤ i < n → 0 ≤ draw i ≤ k) →
  runSingleCheck countingSortStable draw n = Some true
  ∧ (k < 1000000000 → runSingleCheck radixSortLSD draw n = Some true)
  ∧ runSingleCheck bucketSort draw n = Some true
  ∧ runSingleCheck pigeonholeSort draw n = Some true.
Proof.
  intros Hn Hk Hdraw.
  pose proof (random_int_keys draw n k Hk Hdraw) as Hint.
  pose proof (random_span_fits draw n k Hk Hdraw) as Hspan.
  pose proof (random_negatable draw n k Hdraw) as Hneg.
  split_and!; [|intros Hdig|..]; apply (check_of_stable_sort draw n Hn).
  - by apply countingSortStable_correct.
  - apply radixSortLSD_defined; [done..|].
    intros a b Ha Hb.
    pose proof (random_keys draw n k Hdraw a Ha).
    pose proof (random_keys draw n k Hdraw b Hb). lia.
  - by apply bucketSort_correct, span_fits_diff.
  - by apply pigeonholeSort_correct.
Qed.

Lemma runSingleCheck_stable_witness :
  runSingleCheck countingSortStable (λ i, (i * i) `mod` 4) 6 = Some true
  ∧ runSingleCheck radixSortLSD (λ i, (i * i) `mod` 4) 6 = Some true
  ∧ runSingleCheck bucketSort (λ i, (i * i) `mod` 4) 6 = Some true
  ∧ runSingleCheck pigeonholeSort (λ i, (i * i) `mod` 4) 6 = Some true.
Proof.
  destruct (runSingleCheck_stable (λ i, (i * i) `mod` 4) 6 3)
    as (H1 & H2 & H3 & H4); [unfold INT_MAX; lia..| |].
  { intros i _. pose proof (Z.mod_pos_bound (i * i) 4). lia. }
  split_and!; [exact H1|apply H2; lia|exact H3|exact H4].
Defined.

(** X19.  The check that [main] runs on [countingSortUnstable] comes
    out the same way: on generated data, whose [id]s are the
    positions, [verify] accepts the output with the stability check
    on, so [isStable] is [true] and the line "NO (Expected)" is not
    the one printed. *)
Theorem runSingleCheck_unstable (draw : Z → Z) (n k : Z) :
  0 ≤ n ≤ INT_MAX → 0 ≤ k < INT_MAX →
  (∀ i, 0 ≤ i < n → 0 ≤ draw i ≤ k) →
  runSingleCheck countingSortUnstable draw n = Some true.
Proof.
  intros Hn Hk Hdraw. unfold runSingleCheck.
  rewrite generateData_RANDOM_Some by lia. rewrite bind_Some.
  destruct (verify_countingSortUnstable
              ((λ i, mkRecord (draw i) i) <$> seqZ 0 n))
    as (out & -> & Hv).
  - by apply (random_int_keys draw n k).
  - by apply (random_span_fits draw n k).
  - by apply (random_ids_sorted draw n).
  - by rewrite bind_Some, Hv.
Qed.

Lemma runSingleCheck_unstable_witness :
  runSingleCheck countingSortUnstable (λ i, (i * i) `mod` 4) 6 = Some true.
Proof.
  apply (runSingleCheck_unstable (λ i, (i * i) `mod` 4) 6 3);
    [unfold INT_MAX; lia..|].
  intros i _. pose proof (Z.mod_pos_bound (i * i) 4). lia.
Defined.

(** ** The limits of the span *)



(** ** When the verifier tells the unstable sort apart *)




